(** * datasense front end: composer autocomplete, message rendering and
      message-option preferences

    A shallow embedding of three pieces of the front end:

    - [ExpandingInput.tsx]: the handlers of the chat composer
      ([handleChange], [handleSubmit], [handleKeyPress],
      [insertSuggestionAtCaret]);
    - [parseMessageContent] of the [Message] component, which renders
      bracketed tokens of a finalized message as chips;
    - [hooks/messageOptions.ts]: [readMessageOptionsFromLocalStorage] and
      [saveMessageOptionsToLocalStorage] over the browser's localStorage.

    Definitions come first, one module per source unit; the lemmas and the
    theorems about them follow. *)

From Stdlib Require Import Ascii String ZArith Lia.
From stdpp Require Import gmap strings list.

Open Scope Z_scope.
Open Scope nat_scope.

(** ** JavaScript primitives used by the code *)

Module JS.

(** A JavaScript string is a sequence of code units. The code only ever
    tests code units against ASCII classes (word characters, the four
    bracket characters), so a code unit is an [ascii] here. *)
Abbreviation jsstring := (list ascii).

(** A string literal of the source. *)
Definition js (s : string) : jsstring := list_ascii_of_string s.

Definition in_range (lo hi c : ascii) : bool :=
  (Ascii.leb lo c && Ascii.leb c hi)%bool.

(** The regular-expression class [\w], which is [[A-Za-z0-9_]]. *)
Definition is_word_char (c : ascii) : bool :=
  (in_range "a" "z" c || in_range "A" "Z" c || in_range "0" "9" c
   || bool_decide (c = "_"%char))%bool.

(** [String.prototype.toLowerCase] on ASCII text: the letters [A-Z] move
    to [a-z], every other code unit stays. *)
Definition lower_char (c : ascii) : ascii :=
  if in_range "A" "Z" c then ascii_of_nat (nat_of_ascii c + 32) else c.

Definition toLowerCase (s : jsstring) : jsstring := map lower_char s.

(** [q] is a prefix of [s] (both scanned from their heads). *)
Fixpoint starts_with (q s : jsstring) : bool :=
  match q, s with
  | [], _ => true
  | _ :: _, [] => false
  | a :: q', b :: s' => (bool_decide (a = b) && starts_with q' s')%bool
  end.

(** [s.includes(q)]: try every start position of [s] from the left. *)
Fixpoint includes (s q : jsstring) : bool :=
  (starts_with q s ||
   match s with
   | [] => false
   | _ :: s' => includes s' q
   end)%bool.

(** [s.slice(0, n)] and [s.substring(0, n)] for [0 <= n]. *)
Definition slice_to (n : nat) (s : jsstring) : jsstring := take n s.

(** [s.substring(n)] and [s.slice(n)] for [0 <= n]. *)
Definition substring_from (n : nat) (s : jsstring) : jsstring := drop n s.

(** Whether [/\w{3,}$/] matches with the match starting at the head of
    [s]: the greedy [\w{3,}] takes the longest run of word characters,
    [$] then asks for the end of the input, and giving characters back
    never reaches the end; so the attempt succeeds exactly when all of
    [s] is word characters and there are at least three of them. *)
Definition word3_to_end_here (s : jsstring) : bool :=
  (forallb is_word_char s && (3 <=? length s))%bool.

(** [s.match(/(\w{3,})$/)], giving capture group 1: the engine tries the
    start positions of [s] from the left and keeps the first that
    succeeds. *)
Fixpoint match_word3_to_end (s : jsstring) : option jsstring :=
  match s with
  | [] => None
  | _ :: s' =>
      if word3_to_end_here s then Some s else match_word3_to_end s'
  end.

(** Split [s] at the first occurrence of [cl]: the characters before it
    and the text from it on. This is the greedy class [[^cl]*]. *)
Fixpoint span_not (cl : ascii) (s : jsstring) : jsstring * jsstring :=
  match s with
  | [] => ([], [])
  | c :: s' =>
      if bool_decide (c = cl) then ([], s)
      else let '(body, rest) := span_not cl s' in (c :: body, rest)
  end.

(** One alternative of [/<([^>]+)>|\[([^\]]+)\]/] tried at the head of
    [s]: the opening bracket [op], one or more characters other than
    the closing bracket [cl], then [cl]. The result is the capture group
    and the text after the match. *)
Definition match_bracket_here (op cl : ascii) (s : jsstring)
  : option (jsstring * jsstring) :=
  match s with
  | c :: s' =>
      if bool_decide (c = op) then
        match span_not cl s' with
        | ((_ :: _) as body, _ :: rest) => Some (body, rest)
        | _ => None
        end
      else None
  | [] => None
  end.

(** The own property names of [Object.prototype]. An object made by an
    object literal, by a spread or by [JSON.parse] has [Object.prototype]
    as its prototype, so [k in o] is true and [o[k]] is the member of
    the prototype for each of these names that [o] does not have as an
    own property. The members are functions, except ["__proto__"], an
    accessor whose getter gives the prototype itself and whose setter
    replaces the prototype by an object and ignores any other value. *)
Definition Object_prototype_names : list string :=
  ["constructor"; "__defineGetter__"; "__defineSetter__"; "hasOwnProperty";
   "__lookupGetter__"; "__lookupSetter__"; "isPrototypeOf";
   "propertyIsEnumerable"; "toString"; "valueOf"; "__proto__";
   "toLocaleString"]%string.

(** [k] names a member of [Object.prototype]. *)
Definition inherited (k : string) : bool :=
  bool_decide (k ∈ Object_prototype_names).

End JS.

(** ** The message renderer: [parseMessageContent] *)

Module Renderer.
Import JS.

(** The React nodes pushed on [parts]: a plain string, a [<span>] chip
    for group 1 (angle brackets, a glossary term) and a [<strong>] chip
    for group 2 (square brackets, a unique key). The [className] and
    [key] attributes do not affect the sequence and are left out. *)
Inductive node : Type :=
| Plain (s : jsstring)
| GlossaryChip (s : jsstring)
| UniqueKeyChip (s : jsstring).

(** What one successful [regex.exec] reports. *)
Record exec_match : Type := ExecMatch {
  em_before : jsstring;   (* text.slice(lastIndex, match.index) *)
  em_group1 : option jsstring;
  em_group2 : option jsstring;
  em_rest : jsstring      (* text.slice(regex.lastIndex) *)
}.

(** The two alternatives at the head of [s], in the order of the
    regular expression. *)
Definition match_here (s : jsstring) : option exec_match :=
  match match_bracket_here "<" ">" s with
  | Some (g, rest) => Some (ExecMatch [] (Some g) None rest)
  | None =>
      match match_bracket_here "[" "]" s with
      | Some (g, rest) => Some (ExecMatch [] None (Some g) rest)
      | None => None
      end
  end.

(** [regex.exec(text)] with the global flag, on the text from
    [lastIndex] on: the leftmost position where an alternative matches. *)
Fixpoint regex_exec (s : jsstring) : option exec_match :=
  match match_here s with
  | Some m => Some m
  | None =>
      match s with
      | [] => None
      | c :: s' =>
          match regex_exec s' with
          | Some m =>
              Some (ExecMatch (c :: em_before m) (em_group1 m)
                              (em_group2 m) (em_rest m))
          | None => None
          end
      end
  end.

(** A string is truthy when it is not empty. *)
Definition truthy (s : jsstring) : bool :=
  match s with [] => false | _ :: _ => true end.

Definition truthy_group (g : option jsstring) : bool :=
  match g with Some s => truthy s | None => false end.

(** [if (s) parts.push(s)]. *)
Definition push_if_truthy (parts : list node) (s : jsstring) : list node :=
  if truthy s then parts ++ [Plain s] else parts.

(** The body of the [while] loop for one match. *)
Definition push_match (parts : list node) (m : exec_match) : list node :=
  let parts := push_if_truthy parts (em_before m) in
  if truthy_group (em_group1 m) then
    parts ++ [GlossaryChip (default [] (em_group1 m))]
  else if truthy_group (em_group2 m) then
    parts ++ [UniqueKeyChip (default [] (em_group2 m))]
  else parts.

(** The [while] loop and the code after it. The pair of [text] and
    [lastIndex] is carried as the remaining text
    [text.slice(lastIndex)]; [fuel] bounds the number of iterations. *)
Fixpoint parse_loop (fuel : nat) (parts : list node) (rest : jsstring)
  : option (list node) :=
  match regex_exec rest with
  | Some m =>
      match fuel with
      | O => None
      | S fuel' => parse_loop fuel' (push_match parts m) (em_rest m)
      end
  | None => Some (push_if_truthy parts rest)
  end.

(** Every match consumes at least three code units, so [length text]
    iterations are enough. *)
Definition parseMessageContent (text : jsstring) : option (list node) :=
  parse_loop (length text) [] text.

(** The source text a node stands for. *)
Definition node_source (n : node) : jsstring :=
  match n with
  | Plain s => s
  | GlossaryChip s => js "<" ++ s ++ js ">"
  | UniqueKeyChip s => js "[" ++ s ++ js "]"
  end.

End Renderer.

(** ** The composer: [ExpandingInput.tsx] *)

Module Composer.
Import JS.

(** The [autoCompleteList] object: its own properties in the order
    [Object.keys] lists them, each with its array of tags. The keys of
    an object are distinct; a lookup takes the first entry of a key. *)
Definition dictionary : Type := list (jsstring * list jsstring).

(** The props the handlers read. [autoCompleteList] may be [undefined]
    or [null] ([None]). *)
Record props : Type := Props {
  disabled : bool;
  autoCompleteList : option dictionary
}.

(** The [useState] cells the handlers read and write. *)
Record state : Type := State {
  inputValue : jsstring;
  filteredSuggestions : list jsstring;
  showSuggestions : bool;
  selectedIndex : Z
}.

Definition initial : state := State [] [] false 0%Z.

(** The textarea that [ref.current] gives, with the selection the
    browser keeps for it. The cursor is a collapsed selection. *)
Record textarea : Type := Textarea {
  selectionStart : nat;
  selectionEnd : nat
}.

(** A [KeyboardEvent]. *)
Record key_event : Type := KeyEvent {
  key : string;
  shiftKey : bool
}.

(** What a handler does besides updating the state, in program order.
    The calls the [setTimeout] callback makes are listed after those of
    the handler itself. The height adjustments of the textarea style are
    left out. *)
Inductive effect : Type :=
| PreventDefault
| OnSubmit (value : jsstring)
| SetSelectionRange (from to : nat)
| Focus
| TypeError.

Definition set_inputValue (v : jsstring) (st : state) : state :=
  State v (filteredSuggestions st) (showSuggestions st) (selectedIndex st).
Definition set_filteredSuggestions (l : list jsstring) (st : state) : state :=
  State (inputValue st) l (showSuggestions st) (selectedIndex st).
Definition set_showSuggestions (b : bool) (st : state) : state :=
  State (inputValue st) (filteredSuggestions st) b (selectedIndex st).
Definition set_selectedIndex (i : Z) (st : state) : state :=
  State (inputValue st) (filteredSuggestions st) (showSuggestions st) i.

(** [Object.keys(autoCompleteList || {})]. *)
Definition suggestions (p : props) : list jsstring :=
  match autoCompleteList p with
  | Some d => map fst d
  | None => []
  end.

(** [handleChange], given [e.target.value] and
    [e.target.selectionStart]. *)
Definition handleChange (p : props) (value : jsstring) (cursorPos : nat)
    (st : state) : state :=
  let st := set_inputValue value st in
  let textBeforeCursor := slice_to cursorPos value in
  match match_word3_to_end textBeforeCursor with
  | Some m1 =>
      let query := toLowerCase m1 in
      let filtered :=
        List.filter (fun s => includes (toLowerCase s) query) (suggestions p) in
      set_selectedIndex 0%Z
        (set_showSuggestions (0 <? length filtered)
           (set_filteredSuggestions filtered st))
  | None =>
      set_selectedIndex 0%Z (set_showSuggestions false st)
  end.

(** [handleSubmit]. *)
Definition handleSubmit (p : props) (st : state) : state * list effect :=
  if (disabled p || (length (inputValue st) =? 0))%bool then (st, [])
  else (set_showSuggestions false (set_inputValue [] st),
        [OnSubmit (inputValue st)]).

(** A value that is a string or [undefined], as text: in a template
    literal, in a concatenation, or as a property name. *)
Definition to_text (v : option jsstring) : jsstring :=
  match v with
  | Some s => s
  | None => js "undefined"
  end.

(** The tags of the own property [k] of [d], [None] when [d] has no own
    property [k]. *)
Fixpoint dict_get (d : dictionary) (k : jsstring) : option (list jsstring) :=
  match d with
  | [] => None
  | (k', tags) :: d' =>
      if bool_decide (k' = k) then Some tags else dict_get d' k
  end.

(** [tags?.includes(t)], falsy when [tags] is [undefined]. *)
Definition tags_include (tags : option (list jsstring)) (t : jsstring) : bool :=
  match tags with
  | Some l => existsb (fun x => bool_decide (x = t)) l
  | None => false
  end.

(** The wrapper chosen from the tags. An unwrapped [undefined] stays
    [undefined]. *)
Definition wrap (tags : option (list jsstring)) (suggestion : option jsstring)
  : option jsstring :=
  if tags_include tags (js "uniqueKey") then
    Some (js "[" ++ to_text suggestion ++ js "]")
  else if tags_include tags (js "glossary") then
    Some (js "<" ++ to_text suggestion ++ js ">")
  else suggestion.

(** [replaceStart]: the start of the word in progress before [start]. *)
Definition replace_start (textBefore : jsstring) (start : nat) : nat :=
  match match_word3_to_end textBefore with
  | Some m1 => start - length m1
  | None => start
  end.

(** [insertSuggestionAtCaret]. [ta] is what the forwarded ref gives:
    [None] when it is [null] or has no [current]. [suggestion] is
    [None] for [undefined], which is what an index outside the filtered
    list yields. Reading a property of an absent [autoCompleteList]
    throws before any state is set; an [undefined] wrapped suggestion
    has no [length], so the timer callback throws before it moves the
    cursor. [autoCompleteList[suggestion]] goes through the prototype
    chain: for a name of [Object.prototype] that the dictionary does not
    have as an own property, [tags] is the inherited member, which has
    no [includes], so [tags?.includes(...)] throws before any state is
    set. *)
Definition insertSuggestionAtCaret (p : props) (ta : option textarea)
    (st : state) (suggestion : option jsstring) : state * list effect :=
  match ta with
  | None => (st, [])
  | Some t =>
      let start := selectionStart t in
      let end_ := selectionEnd t in
      let textBefore := slice_to start (inputValue st) in
      let textAfter := substring_from end_ (inputValue st) in
      let replaceStart := replace_start textBefore start in
      match autoCompleteList p with
      | None => (st, [TypeError])
      | Some d =>
          let tags := dict_get d (to_text suggestion) in
          if (bool_decide (tags = None)
              && inherited (string_of_list_ascii (to_text suggestion)))%bool
          then (st, [TypeError])
          else
          let wrappedSuggestion := wrap tags suggestion in
          let newValue :=
            slice_to replaceStart (inputValue st)
            ++ to_text wrappedSuggestion ++ js " " ++ textAfter in
          let st' :=
            set_selectedIndex 0%Z
              (set_showSuggestions false (set_inputValue newValue st)) in
          match wrappedSuggestion with
          | Some w =>
              let newPos := replaceStart + length w + 1 in
              (st', [SetSelectionRange newPos newPos; Focus])
          | None => (st', [TypeError])
          end
      end
  end.

(** [a[i]] for an integer [i]: [undefined] outside the array. *)
Definition array_get {A : Type} (a : list A) (i : Z) : option A :=
  if (i <? 0)%Z then None else a !! Z.to_nat i.

(** The condition under which the key handler serves the suggestion
    keys, which is also the condition under which the list is rendered. *)
Definition list_shown (st : state) : bool :=
  (showSuggestions st && (0 <? length (filteredSuggestions st)))%bool.

(** The first [if] of [handleKeyPress]: [Some] when one of its four
    branches returned, [None] when control goes on to the [Enter] test. *)
Definition suggestion_keys (p : props) (ta : option textarea) (st : state)
    (e : key_event) : option (state * list effect) :=
  if list_shown st then
    if String.eqb (key e) "ArrowDown" then
      let prev := selectedIndex st in
      Some (set_selectedIndex
              (if (prev <? Z.of_nat (length (filteredSuggestions st)) - 1)%Z
               then (prev + 1)%Z else prev) st,
            [PreventDefault])
    else if String.eqb (key e) "ArrowUp" then
      let prev := selectedIndex st in
      Some (set_selectedIndex (if (0 <? prev)%Z then (prev - 1)%Z else prev) st,
            [PreventDefault])
    else if String.eqb (key e) "Tab" then
      let '(st', effs) :=
        insertSuggestionAtCaret p ta st
          (array_get (filteredSuggestions st) (selectedIndex st)) in
      Some (st', PreventDefault :: effs)
    else if String.eqb (key e) "Escape" then
      Some (set_showSuggestions false st, [PreventDefault])
    else None
  else None.

(** The last [if] of [handleKeyPress]. *)
Definition enter_key (p : props) (st : state) (e : key_event)
  : state * list effect :=
  if (String.eqb (key e) "Enter" && negb (shiftKey e))%bool then
    let '(st', effs) := handleSubmit p st in (st', PreventDefault :: effs)
  else (st, []).

(** [handleKeyPress]. *)
Definition handleKeyPress (p : props) (ta : option textarea) (st : state)
    (e : key_event) : state * list effect :=
  match suggestion_keys p ta st e with
  | Some r => r
  | None => enter_key p st e
  end.

(** The events of the composer. A list item exists, and so can be
    clicked or hovered, only while the list is rendered. *)
Inductive event : Type :=
| Change (value : jsstring) (cursorPos : nat)
| KeyDown (e : key_event)
| ClickItem (index : nat)
| MouseEnterItem (index : nat)
| ClickSend.

(** The handler an event runs, with the props and the textarea of the
    render it happens in; [None] when the event cannot happen in [st]. *)
Definition dispatch (p : props) (ta : option textarea) (st : state)
    (ev : event) : option (state * list effect) :=
  match ev with
  | Change value cursorPos => Some (handleChange p value cursorPos st, [])
  | KeyDown e => Some (handleKeyPress p ta st e)
  | ClickItem index =>
      if list_shown st then
        match filteredSuggestions st !! index with
        | Some s => Some (insertSuggestionAtCaret p ta st (Some s))
        | None => None
        end
      else None
  | MouseEnterItem index =>
      if (list_shown st && (index <? length (filteredSuggestions st)))%bool
      then Some (set_selectedIndex (Z.of_nat index) st, [])
      else None
  | ClickSend => Some (handleSubmit p st)
  end.

(** The states the composer can be in: from the initial render, one
    event after the other, each with the props and textarea current at
    that time. *)
Inductive reachable : state -> Prop :=
| reachable_initial : reachable initial
| reachable_step p ta st ev st' effs :
    reachable st ->
    dispatch p ta st ev = Some (st', effs) ->
    reachable st'.

(** The highlighted index is an index of the filtered list. *)
Definition index_in_bounds (st : state) : Prop :=
  (0 <= selectedIndex st
   /\ selectedIndex st <= Z.of_nat (length (filteredSuggestions st)) - 1)%Z.

(** The bounds of the highlighted index, for a list that is not empty. *)
Definition bounded (st : state) : Prop :=
  filteredSuggestions st <> [] -> index_in_bounds st.

End Composer.

(** ** Message options in localStorage: [hooks/messageOptions.ts] *)

Module MessageOptions.

(** An options object as [JSON.parse] yields it. The interface
    [IMessageOptions] declares both flags, but a stored object may lack
    one. A [Partial<IMessageOptions>] is the same record. *)
Record IMessageOptions : Type := Options {
  secure_data : option bool;
  debug : option bool
}.

(** A value that [all[connection_id]] yields. A value of the stored map
    is an options object, or a falsy value such as [null], which the
    migration skips; the cast to [IStorageMessageOptions] leaves no
    other shape. [Inherited name] is the member [name] of
    [Object.prototype]: it is what a lookup gives for such a name when
    the map has no own entry of that name, and JSON text never holds
    it. It is truthy and has no enumerable property of its own. *)
Inductive stored : Type :=
| Null
| Obj (o : IMessageOptions)
| Inherited (name : string).

(** The two localStorage items the module touches. The item
    ["message_options"] is kept as the map its JSON text denotes, that
    is the own properties of the object [JSON.parse] gives
    ([JSON.parse] after [JSON.stringify] gives the map back); [None] is
    a missing item, for which [getItem] returns [null]. The order in
    which the text lists the keys is not part of the map: two storages
    are equal here when their texts denote the same map. *)
Record localStorage : Type := LocalStorage {
  message_options : option (gmap string stored);
  message_options_migration_v1 : option string
}.

Definition MIGRATION_KEY_V1 : string := "message_options_migration_v1".

(** The calls made on localStorage, by key. *)
Inductive call : Type :=
| GetItem (k : string)
| SetItem (k : string).

(** Code that runs against localStorage: the result, the storage it
    leaves and the calls it made, in order. *)
Definition LS (A : Type) : Type := localStorage -> A * localStorage * list call.

Definition ret {A : Type} (a : A) : LS A := fun s => (a, s, []).

Definition bind {A B : Type} (c : LS A) (k : A -> LS B) : LS B :=
  fun s =>
    let '(a, s1, l1) := c s in
    let '(b, s2, l2) := k a s1 in
    (b, s2, l1 ++ l2).

Declare Scope ls_scope.
Delimit Scope ls_scope with ls.
Notation "'let*' x ':=' c 'in' k" := (bind c (fun x => k))
  (at level 10, x name, c at level 100, k at level 200) : ls_scope.
Notation "c ';;;' k" := (bind c (fun _ => k))
  (at level 100, k at level 200, right associativity) : ls_scope.

Definition getItem_message_options : LS (option (gmap string stored)) :=
  fun s => (message_options s, s, [GetItem "message_options"]).

Definition setItem_message_options (m : gmap string stored) : LS unit :=
  fun s => (tt, LocalStorage (Some m) (message_options_migration_v1 s),
            [SetItem "message_options"]).

Definition getItem_migration : LS (option string) :=
  fun s => (message_options_migration_v1 s, s, [GetItem MIGRATION_KEY_V1]).

Definition setItem_migration (v : string) : LS unit :=
  fun s => (tt, LocalStorage (message_options s) (Some v),
            [SetItem MIGRATION_KEY_V1]).

(** [!hasMigrated] is false for a stored string that is not empty. *)
Definition truthy_item (v : option string) : bool :=
  match v with
  | Some s => negb (String.eqb s "")
  | None => false
  end.

(** [JSON.parse(item ?? "{}")]. *)
Definition parse_or_empty (item : option (gmap string stored))
  : gmap string stored :=
  default ∅ item.

(** The body of the [forEach]:
    [if (all[key]) all[key].secure_data = false]. *)
Definition force_secure_data_off (v : stored) : stored :=
  match v with
  | Null => Null
  | Obj o => Obj (Options (Some false) (debug o))
  | Inherited name => Inherited name
  end.

(** [k in all ? Some all[k] : None], through the prototype chain: an own
    property first, then the member of [Object.prototype] of that
    name. *)
Definition js_get (all : gmap string stored) (k : string) : option stored :=
  match all !! k with
  | Some v => Some v
  | None => if JS.inherited k then Some (Inherited k) else None
  end.

(** [all[k] = v] for an object [v]. The assignment makes or overwrites
    the own property [k], except for ["__proto__"] when it is not an own
    property: the setter of [Object.prototype] then replaces the
    prototype of [all] and no property is made, so the text
    [JSON.stringify(all)] gives afterwards is that of [all] as it
    was. *)
Definition js_set (all : gmap string stored) (k : string) (v : stored)
  : gmap string stored :=
  if (String.eqb k "__proto__" && bool_decide (all !! k = None))%bool then all
  else <[k := v]> all.

(** [connection_id in all ? all[connection_id] : DEFAULT_OPTIONS], the
    end of the function. [DEFAULT_OPTIONS] is imported from [@/api]; the
    functions that use it take it as their first argument. *)
Definition plain_read (DEFAULT_OPTIONS : IMessageOptions)
    (connection_id : string) : LS stored :=
  (let* item := getItem_message_options in
   let allMessageOptions := parse_or_empty item in
   match js_get allMessageOptions connection_id with
   | Some v => ret v
   | None => ret (Obj DEFAULT_OPTIONS)
   end)%ls.

(** The block run when the marker is falsy: [Some] when it returns the
    entry of [connection_id], [None] when control leaves the block. *)
Definition migrate_v1 (connection_id : string) : LS (option stored) :=
  (let* item := getItem_message_options in
   let allMessageOptions := force_secure_data_off <$> parse_or_empty item in
   setItem_message_options allMessageOptions ;;;
   setItem_migration "true" ;;;
   ret (js_get allMessageOptions connection_id))%ls.

(** [readMessageOptionsFromLocalStorage]. *)
Definition readMessageOptionsFromLocalStorage
    (DEFAULT_OPTIONS : IMessageOptions) (connection_id : option string)
  : LS stored :=
  match connection_id with
  | None => ret (Obj DEFAULT_OPTIONS)
  | Some cid =>
      (let* hasMigrated := getItem_migration in
       if negb (truthy_item hasMigrated) then
         let* returned := migrate_v1 cid in
         match returned with
         | Some v => ret v
         | None => plain_read DEFAULT_OPTIONS cid
         end
       else plain_read DEFAULT_OPTIONS cid)%ls
  end.

(** The spread [{...a, ...changes}] of two options objects. *)
Definition spread (a changes : IMessageOptions) : IMessageOptions :=
  Options (from_option Some (secure_data a) (secure_data changes))
          (from_option Some (debug a) (debug changes)).

(** The spread of a value a lookup gave: a falsy value contributes
    nothing, and neither does a member of [Object.prototype], which has
    no enumerable property of its own. *)
Definition spread_stored (v : stored) (changes : IMessageOptions)
  : IMessageOptions :=
  match v with
  | Null => changes
  | Obj o => spread o changes
  | Inherited _ => changes
  end.

(** [saveMessageOptionsToLocalStorage]. *)
Definition saveMessageOptionsToLocalStorage
    (DEFAULT_OPTIONS : IMessageOptions) (connection_id : string)
    (changes : IMessageOptions) : LS unit :=
  (let* item := getItem_message_options in
   let allMessageOptions := parse_or_empty item in
   let entry :=
     match js_get allMessageOptions connection_id with
     | Some v => spread_stored v changes
     | None => spread DEFAULT_OPTIONS changes
     end in
   setItem_message_options
     (js_set allMessageOptions connection_id (Obj entry)))%ls.

(** The two operations of the module, as the hooks call them. *)
Inductive operation : Type :=
| Read (connection_id : option string)
| Save (connection_id : string) (changes : IMessageOptions).

Definition run_operation (DEFAULT_OPTIONS : IMessageOptions)
    (op : operation) : LS unit :=
  match op with
  | Read cid =>
      (readMessageOptionsFromLocalStorage DEFAULT_OPTIONS cid ;;; ret tt)%ls
  | Save cid changes =>
      saveMessageOptionsToLocalStorage DEFAULT_OPTIONS cid changes
  end.

Fixpoint run_operations (DEFAULT_OPTIONS : IMessageOptions)
    (ops : list operation) : LS unit :=
  match ops with
  | [] => ret tt
  | op :: ops' =>
      (run_operation DEFAULT_OPTIONS op ;;;
       run_operations DEFAULT_OPTIONS ops')%ls
  end.

(** How often the forced overwrite ran: it is the only code that sets
    the marker. *)
Definition migration_passes (calls : list call) : nat :=
  length (List.filter
            (fun c => match c with
                      | SetItem k => String.eqb k MIGRATION_KEY_V1
                      | GetItem _ => false
                      end) calls).

Definition writes (calls : list call) : list call :=
  List.filter (fun c => match c with SetItem _ => true | GetItem _ => false end)
              calls.

End MessageOptions.

(** ** The properties of the specification, in its own words *)

Module Spec.
Import JS Renderer.

(** The two bracket forms: the opening and the closing character. *)
Definition bracket_kinds : list (ascii * ascii) :=
  [("<"%char, ">"%char); ("["%char, "]"%char)].

(** A bracket form starts at the head of [s]: an opening bracket, a
    content that is not empty and has no closing bracket of that kind,
    and the closing bracket. *)
Definition bracket_form_at (s : jsstring) : Prop :=
  exists op cl g rest,
    (op, cl) ∈ bracket_kinds /\ s = op :: g ++ cl :: rest
    /\ g <> [] /\ cl ∉ g.

(** A plain-text run, which is never emitted empty. *)
Definition plain_run (s : jsstring) : list node :=
  match s with
  | [] => []
  | _ :: _ => [Plain s]
  end.

(** Scanning [s] from the left for the first bracket form, again after
    it, and so on: the plain runs and chips this gives, in order. *)
Inductive scan : jsstring -> list node -> Prop :=
| scan_plain s :
    (forall i, ~ bracket_form_at (drop i s)) ->
    scan s (plain_run s)
| scan_glossary before g rest parts :
    (forall i, i < length before ->
       ~ bracket_form_at (drop i (before ++ js "<" ++ g ++ js ">" ++ rest))) ->
    g <> [] -> ">"%char ∉ g ->
    scan rest parts ->
    scan (before ++ js "<" ++ g ++ js ">" ++ rest)
         (plain_run before ++ GlossaryChip g :: parts)
| scan_unique_key before g rest parts :
    (forall i, i < length before ->
       ~ bracket_form_at (drop i (before ++ js "[" ++ g ++ js "]" ++ rest))) ->
    g <> [] -> "]"%char ∉ g ->
    scan rest parts ->
    scan (before ++ js "[" ++ g ++ js "]" ++ rest)
         (plain_run before ++ UniqueKeyChip g :: parts).


(** What a match reports against the text it was found in. *)
Definition match_of (s : jsstring) (m : exec_match) : Prop :=
  exists g,
    g <> [] /\
    ((em_group1 m = Some g /\ em_group2 m = None /\ (">"%char ∉ g)
      /\ s = em_before m ++ js "<" ++ g ++ js ">" ++ em_rest m)
     \/ (em_group1 m = None /\ em_group2 m = Some g /\ ("]"%char ∉ g)
         /\ s = em_before m ++ js "[" ++ g ++ js "]" ++ em_rest m)).


(** [q] occurs in [s] as a substring. *)
Definition contains (s q : jsstring) : Prop :=
  exists pre post, s = pre ++ q ++ post.

(** [run] is the maximal run of word characters at the end of [s]:
    all of [run] is word characters, and what precedes it is nothing or
    ends in a character that is not one. *)
Definition is_trailing_word_run (s run : jsstring) : Prop :=
  exists pre,
    s = pre ++ run
    /\ forallb is_word_char run = true
    /\ (pre = [] \/ exists pre' c, pre = pre' ++ [c] /\ is_word_char c = false).

(** The run, computed from the end of the text backwards. *)
Fixpoint take_while_word (s : jsstring) : jsstring :=
  match s with
  | [] => []
  | c :: s' => if is_word_char c then c :: take_while_word s' else []
  end.

Definition trailing_word_run (s : jsstring) : jsstring :=
  reverse (take_while_word (reverse s)).

(** The value a handler passed to [onSubmit], if it called it. *)
Fixpoint submitted (effs : list Composer.effect) : option jsstring :=
  match effs with
  | [] => None
  | Composer.OnSubmit v :: _ => Some v
  | _ :: effs' => submitted effs'
  end.

(** The position a handler moved the cursor to, if it did. *)
Fixpoint cursor_moved_to (effs : list Composer.effect) : option (nat * nat) :=
  match effs with
  | [] => None
  | Composer.SetSelectionRange a b :: _ => Some (a, b)
  | _ :: effs' => cursor_moved_to effs'
  end.

(** The four keys of the suggestion contract. *)
Definition is_suggestion_key (k : string) : bool :=
  (String.eqb k "ArrowDown" || String.eqb k "ArrowUp"
   || String.eqb k "Tab" || String.eqb k "Escape")%bool.



End Spec.

(** ** The hooks around the message options: [usePatchMessageOptions],
       [getMessageOptions] *)

Module MessageOptionsHooks.
Import MessageOptions.

(** The [mutationFn] of [usePatchMessageOptions]:
    [connection_id && saveMessageOptionsToLocalStorage(connection_id, changes)].
    An undefined and an empty connection id are both falsy. *)
Definition patch_mutationFn (DEFAULT_OPTIONS : IMessageOptions)
    (connection_id : option string) (changes : IMessageOptions) : LS unit :=
  match connection_id with
  | Some cid =>
      if String.eqb cid "" then ret tt
      else saveMessageOptionsToLocalStorage DEFAULT_OPTIONS cid changes
  | None => ret tt
  end.

(** The [queryFn] of [getMessageOptions]. *)
Definition getMessageOptions_queryFn (DEFAULT_OPTIONS : IMessageOptions)
    (connection_id : option string) : LS stored :=
  readMessageOptionsFromLocalStorage DEFAULT_OPTIONS connection_id.

End MessageOptionsHooks.

(** ** The conversation hooks: paging, optimistic delete, the related
       connection *)

Module Conversations.

(** [IConversationWithMessagesWithResultsOut], over the type [M] of its
    messages. *)
Record conversation (M : Type) : Type := Conversation {
  conv_id : string;
  conv_connection_id : string;
  conv_name : string;
  conv_messages : list M
}.
Arguments Conversation {M}.
Arguments conv_id {M}.
Arguments conv_connection_id {M}.
Arguments conv_name {M}.
Arguments conv_messages {M}.

(** The data of an infinite query: the pages and the parameter each was
    fetched with. *)
Record infinite_data (A : Type) : Type := InfiniteData {
  pages : list (list A);
  pageParams : list nat
}.
Arguments InfiniteData {A}.
Arguments pages {A}.
Arguments pageParams {A}.

(** [getNextPageParam] of [useGetConversationsInfinite]; [null] is
    [None]. *)
Definition getNextPageParam {A : Type} (limit : nat) (lastPage : list A)
    (allPages : list (list A)) : option nat :=
  let totalFetched :=
    foldl (fun total page => total + length page) 0 allPages in
  if length lastPage <? limit then None else Some totalFetched.

(** [conversation.id !== idToDelete]. *)
Definition other_id {M : Type} (idToDelete : string) (c : conversation M) : bool :=
  negb (String.eqb (conv_id c) idToDelete).

(** The updater [onMutate] of [useDeleteConversation] gives the infinite
    query; an absent cache entry stays absent. *)
Definition remove_from_pages {M : Type} (idToDelete : string)
    (oldData : option (infinite_data (conversation M)))
  : option (infinite_data (conversation M)) :=
  match oldData with
  | None => None
  | Some d =>
      Some (InfiniteData (map (List.filter (other_id idToDelete)) (pages d))
                         (pageParams d))
  end.

(** The updater it gives the plain list; an absent cache entry becomes
    the empty list. *)
Definition remove_from_list {M : Type} (idToDelete : string)
    (oldData : option (list (conversation M))) : list (conversation M) :=
  match oldData with
  | None => []
  | Some l => List.filter (other_id idToDelete) l
  end.

(** The two cache entries [onMutate] writes. *)
Record cache (M : Type) : Type := Cache {
  conversations_infinite : option (infinite_data (conversation M));
  conversations : option (list (conversation M))
}.
Arguments Cache {M}.
Arguments conversations_infinite {M}.
Arguments conversations {M}.

(** [onMutate] of [useDeleteConversation], after the queries are
    cancelled. *)
Definition onMutate {M : Type} (idToDelete : string) (c : cache M) : cache M :=
  Cache (remove_from_pages idToDelete (conversations_infinite c))
        (Some (remove_from_list idToDelete (conversations c))).

(** [useGetRelatedConnection], given the route parameter and the data of
    the two queries. A connection is of any type [C] with an [id]; the
    connections query gives an object whose [connections] may be
    missing. *)
Definition useGetRelatedConnection {M C : Type} (conn_id : C -> string)
    (conversationId : string)
    (connectionsData : option (option (list C)))
    (conversationsData : option (list (conversation M))) : option C :=
  let currConversation :=
    match conversationsData with
    | Some l => List.find (fun conv => String.eqb (conv_id conv) conversationId) l
    | None => None
    end in
  match connectionsData with
  | Some (Some l) =>
      List.find
        (fun conn =>
           match currConversation with
           | Some conv => String.eqb (conn_id conn) (conv_connection_id conv)
           | None => false
           end) l
  | _ => None
  end.

End Conversations.

(** ** How the infinite query uses [getNextPageParam] *)

Module Paging.
Import Conversations.

(** The pages an infinite query holds. The first is fetched with the
    initial parameter 0; a further page is fetched with the parameter
    [getNextPageParam] gives for the last page and all pages so far,
    when it gives one. [fetch] is the [queryFn], which asks
    [api.listConversations] for [limit] conversations after [skip]. *)
Inductive fetched {A : Type} (fetch : nat -> list A) (limit : nat)
  : list (list A) -> Prop :=
| fetched_first : fetched fetch limit [fetch 0]
| fetched_next allPages lastPage pageParam :
    fetched fetch limit allPages ->
    last allPages = Some lastPage ->
    getNextPageParam limit lastPage allPages = Some pageParam ->
    fetched fetch limit (allPages ++ [fetch pageParam]).

End Paging.

(** ** The composer under props that stay the same *)

Module ComposerSession.
Import Composer.

(** The states the composer reaches while its props are [p] at every
    event. *)
Inductive reachable_with (p : props) : state -> Prop :=
| reachable_with_initial : reachable_with p initial
| reachable_with_step ta st ev st' effs :
    reachable_with p st ->
    dispatch p ta st ev = Some (st', effs) ->
    reachable_with p st'.

(** The events handled one after the other under [p] and [ta], with the
    effects of all of them; an event that cannot happen in the state it
    meets is passed over. *)
Fixpoint run (p : props) (ta : option textarea) (st : state)
    (evs : list event) : state * list effect :=
  match evs with
  | [] => (st, [])
  | ev :: evs' =>
      match dispatch p ta st ev with
      | Some (st', effs) =>
          let '(st'', effs') := run p ta st' evs' in (st'', effs ++ effs')
      | None => run p ta st evs'
      end
  end.

(** The two ways to submit: the send button and Enter without shift. *)
Definition is_submit_event (ev : event) : bool :=
  match ev with
  | ClickSend => true
  | KeyDown e => (String.eqb (key e) "Enter" && negb (shiftKey e))%bool
  | _ => false
  end.

(** The values passed to [onSubmit], in order. *)
Fixpoint submissions (effs : list effect) : list JS.jsstring :=
  match effs with
  | [] => []
  | OnSubmit v :: effs' => v :: submissions effs'
  | _ :: effs' => submissions effs'
  end.

(** The list is flagged as shown only when it has candidates. *)
Definition shown_has_candidates (st : state) : Prop :=
  showSuggestions st = true -> filteredSuggestions st <> [].

End ComposerSession.

(** ** The connection editor: glossary rows and saving *)

Module ConnectionEditor.

(** An object with string values, as the list of its own properties in
    the order [Object.keys] lists them: the keys that are array indices
    first, by value, then the other keys in the order they were added.
    The keys of an object are distinct. *)
Abbreviation object := (list (string * string)).

(** [o[k]], [undefined] without the property. *)
Fixpoint obj_get (o : object) (k : string) : option string :=
  match o with
  | [] => None
  | (k', v) :: o' => if String.eqb k' k then Some v else obj_get o' k
  end.

(** The value of a decimal digit. *)
Definition digit (c : ascii) : option N :=
  if JS.in_range "0" "9" c then Some (N_of_ascii c - 48)%N else None.

(** The number a string of decimal digits denotes, after [acc]. *)
Fixpoint digits (acc : N) (s : string) : option N :=
  match s with
  | EmptyString => Some acc
  | String c s' =>
      match digit c with
      | Some d => digits (acc * 10 + d)%N s'
      | None => None
      end
  end.

(** The number of a key that is an array index: the decimal form,
    without a leading zero, of an integer from 0 to 2^32 - 2. *)
Definition array_index (k : string) : option N :=
  match k with
  | EmptyString => None
  | String c k' =>
      if (Ascii.eqb c "0" && negb (String.eqb k' ""))%bool then None
      else match digits 0 k with
           | Some n => if (n <=? 4294967294)%N then Some n else None
           | None => None
           end
  end.

(** In the order of [Object.keys], a new key [k] comes before the
    property [k']: [k] is an array index and [k'] is a larger one or is
    none. *)
Definition goes_before (k k' : string) : bool :=
  match array_index k, array_index k' with
  | Some n, Some n' => (n <? n')%N
  | Some _, None => true
  | None, _ => false
  end.

(** The keys are in the order [Object.keys] gives them: none would come
    before a key listed earlier. *)
Fixpoint js_ordered (keys : list string) : Prop :=
  match keys with
  | [] => True
  | k :: keys' =>
      Forall (fun k' => goes_before k' k = false) keys' /\ js_ordered keys'
  end.

(** Adding the property [k], which [o] does not have: an array index
    goes before the first property it comes before, any other key
    last. *)
Fixpoint obj_add (o : object) (k v : string) : object :=
  match o with
  | [] => [(k, v)]
  | (k', v') :: o' =>
      if goes_before k k' then (k, v) :: o else (k', v') :: obj_add o' k v
  end.

(** Overwriting the property [k], which keeps its place. *)
Fixpoint obj_replace (o : object) (k v : string) : object :=
  match o with
  | [] => []
  | (k', v') :: o' =>
      if String.eqb k' k then (k', v) :: o' else (k', v') :: obj_replace o' k v
  end.

(** Making or overwriting the own property [k]. *)
Definition obj_put (o : object) (k v : string) : object :=
  match obj_get o k with
  | Some _ => obj_replace o k v
  | None => obj_add o k v
  end.

(** [o[k] = v] for a string [v]. For ["__proto__"] that is not an own
    property the assignment reaches the setter of [Object.prototype],
    which ignores a value that is not an object: nothing is stored. *)
Definition obj_set (o : object) (k v : string) : object :=
  if (String.eqb k "__proto__" && bool_decide (obj_get o k = None))%bool then o
  else obj_put o k v.

Record GlossaryItem : Type := Item {
  key : string;
  value : string
}.

(** [newGlsry]:
    [Object.keys(glossaryData).map(key => ({key, value: glossaryData[key] || ""}))],
    with [glossaryData = data?.glossary ?? {}]. *)
Definition newGlsry (glossary : option object) : list GlossaryItem :=
  let glossaryData := default [] glossary in
  map (fun k => Item k (default "" (obj_get glossaryData k)))
      (map fst glossaryData).

(** [convertToKeyValueObject]: the [reduce] assigns the rows from the
    left to an empty object. *)
Definition convertToKeyValueObject (arrayList : list GlossaryItem) : object :=
  foldl (fun acc item => obj_set acc (key item) (value item)) [] arrayList.

(** [onAddNewGlossary]. *)
Definition onAddNewGlossary (glossary : list GlossaryItem) : list GlossaryItem :=
  glossary ++ [Item "key" ""].

(** [removeGlossaryData]: [splice(index, 1)] on a copy. *)
Definition removeGlossaryData (index : nat) (glossary : list GlossaryItem)
  : list GlossaryItem :=
  delete index glossary.

(** The [name] of the input a change comes from. *)
Inductive field : Type := FieldKey | FieldValue.

(** [glossaryChangeHandler]: the new rows, or [None] when the row does
    not exist and the assignment throws before any state is set. The
    handler also sets [unsavedChanges]. *)
Definition glossaryChangeHandler (name : field) (v : string) (i : nat)
    (glossary : list GlossaryItem) : option (list GlossaryItem) :=
  match glossary !! i with
  | Some item =>
      Some (<[i := match name with
                   | FieldKey => Item v (value item)
                   | FieldValue => Item (key item) v
                   end]> glossary)
  | None => None
  end.

(** [ConnectionConfig], over the type [N] of numbers. *)
Record ConnectionConfig (N : Type) : Type := Config {
  connection_prompt : option string;
  validation_query : option string;
  default_table_limit : option N
}.
Arguments Config {N}.
Arguments connection_prompt {N}.
Arguments validation_query {N}.
Arguments default_table_limit {N}.

(** The fields of [IConnection] the editor reads, over the type [O] of
    the connection options. *)
Record IConnection (O N : Type) : Type := Connection {
  conn_name : string;
  conn_dsn : string;
  conn_options : option O;
  conn_glossary : option object;
  conn_config : option (ConnectionConfig N)
}.
Arguments Connection {O N}.
Arguments conn_name {O N}.
Arguments conn_dsn {O N}.
Arguments conn_options {O N}.
Arguments conn_glossary {O N}.
Arguments conn_config {O N}.

(** The form state [editFields]. *)
Record IEditConnection (O : Type) : Type := EditFields {
  name : string;
  dsn : option string;
  options : option O
}.
Arguments EditFields {O}.
Arguments name {O}.
Arguments dsn {O}.
Arguments options {O}.

(** The [useState] cells of [ConnectionEditor] that saving reads. *)
Record state (O N : Type) : Type := State {
  unsavedChanges : bool;
  showCancelAlert : bool;
  editFields : IEditConnection O;
  glossary : list GlossaryItem;
  connectionPrompt : string;
  validationQuery : string;
  defaultTableLimit : N
}.
Arguments State {O N}.
Arguments unsavedChanges {O N}.
Arguments showCancelAlert {O N}.
Arguments editFields {O N}.
Arguments glossary {O N}.
Arguments connectionPrompt {O N}.
Arguments validationQuery {O N}.
Arguments defaultTableLimit {O N}.

(** The payload of [updateConnection]. A [dsn] that is left out and one
    that is [undefined] are both [None]. *)
Record payload (O N : Type) : Type := Payload {
  p_name : string;
  p_dsn : option string;
  p_options : option O;
  p_glossary : object;
  p_config : ConnectionConfig N
}.
Arguments Payload {O N}.
Arguments p_name {O N}.
Arguments p_dsn {O N}.
Arguments p_options {O N}.
Arguments p_glossary {O N}.
Arguments p_config {O N}.

(** What a handler of the editor asks for. *)
Inductive effect (O N : Type) : Type :=
| Navigate (to : string)
| UpdateConnection (id : string) (p : payload O N).
Arguments Navigate {O N}.
Arguments UpdateConnection {O N}.

(** [handleSubmit], with the route's [connectionId] and the loaded
    [connection]. *)
Definition handleSubmit {O N : Type} (connectionId : string)
    (connection : option (IConnection O N)) (st : state O N)
  : list (effect O N) :=
  if negb (unsavedChanges st) then [Navigate "/"]
  else if String.eqb connectionId "" then []
  else
    [UpdateConnection connectionId
       (Payload
          (name (editFields st))
          (if bool_decide (dsn (editFields st) <> (conn_dsn <$> connection))
           then dsn (editFields st) else None)
          (options (editFields st))
          (convertToKeyValueObject (glossary st))
          (Config (Some (connectionPrompt st)) (Some (validationQuery st))
                  (Some (defaultTableLimit st))))].

(** [handleBack]. *)
Definition handleBack {O N : Type} (st : state O N)
  : state O N * list (effect O N) :=
  if unsavedChanges st then
    (State (unsavedChanges st) true (editFields st) (glossary st)
           (connectionPrompt st) (validationQuery st) (defaultTableLimit st),
     [])
  else (st, [Navigate "/"]).

Definition set_glossary {O N : Type} (g : list GlossaryItem) (st : state O N)
  : state O N :=
  State (unsavedChanges st) (showCancelAlert st) (editFields st) g
        (connectionPrompt st) (validationQuery st) (defaultTableLimit st).

Definition set_unsavedChanges {O N : Type} (b : bool) (st : state O N)
  : state O N :=
  State b (showCancelAlert st) (editFields st) (glossary st)
        (connectionPrompt st) (validationQuery st) (defaultTableLimit st).

(** The events of the glossary table, as [GlossaryEditor] wires them to
    the state of the editor. *)
Inductive glossary_event : Type :=
| AddRow
| RemoveRow (index : nat)
| ChangeRow (name : field) (v : string) (i : nat).

Definition glossary_step {O N : Type} (ev : glossary_event) (st : state O N)
  : state O N :=
  match ev with
  | AddRow => set_glossary (onAddNewGlossary (glossary st)) st
  | RemoveRow index => set_glossary (removeGlossaryData index (glossary st)) st
  | ChangeRow name v i =>
      match glossaryChangeHandler name v i (glossary st) with
      | Some g => set_unsavedChanges true (set_glossary g st)
      | None => st
      end
  end.

(** Whether an event is one of those that edit a row's text. *)
Definition is_change (ev : glossary_event) : bool :=
  match ev with ChangeRow _ _ _ => true | _ => false end.

(** The events of the glossary table one after the other. *)
Definition fold_glossary_events {O N : Type} (evs : list glossary_event)
    (st : state O N) : state O N :=
  foldl (fun s ev => glossary_step ev s) st evs.

End ConnectionEditor.

(** ** The schema editor: the schema and table switches *)

Module SchemaEditor.

(** A table of [IConnectionOptions], over the type [C] of its columns. *)
Record table (C : Type) : Type := Table {
  table_name : string;
  table_enabled : bool;
  columns : option (list C);
  description : option string
}.
Arguments Table {C}.
Arguments table_name {C}.
Arguments table_enabled {C}.
Arguments columns {C}.
Arguments description {C}.

Record schema (C : Type) : Type := Schema {
  schema_name : string;
  schema_enabled : bool;
  tables : list (table C)
}.
Arguments Schema {C}.
Arguments schema_name {C}.
Arguments schema_enabled {C}.
Arguments tables {C}.

(** [IConnectionOptions] is the list [schemas]. *)
Abbreviation connection_options C := (list (schema C)).

(** [l.map((x, idx) => idx === i ? f(x) : x)]. *)
Fixpoint map_at {A : Type} (i : nat) (f : A -> A) (l : list A) : list A :=
  match l, i with
  | [], _ => []
  | x :: l', O => f x :: l'
  | x :: l', S i' => x :: map_at i' f l'
  end.

(** The [onChange] of the schema switch: the schema and all its tables
    take the value of the switch. *)
Definition toggle_schema {C : Type} (schema_index : nat) (checked : bool)
    (options : connection_options C) : connection_options C :=
  map_at schema_index
    (fun prev_schema =>
       Schema (schema_name prev_schema) checked
              (map (fun t => Table (table_name t) checked (columns t)
                                   (description t))
                   (tables prev_schema)))
    options.

(** The [onChange] of a table switch. *)
Definition toggle_table {C : Type} (schema_index table_index : nat)
    (checked : bool) (options : connection_options C) : connection_options C :=
  map_at schema_index
    (fun prev_schema =>
       Schema (schema_name prev_schema) (schema_enabled prev_schema)
              (map_at table_index
                 (fun t => Table (table_name t) checked (columns t)
                                 (description t))
                 (tables prev_schema)))
    options.

(** [tableDescriptionFieldChangeHandler], on the clone of the options:
    the table is looked up by the two indices and, when it exists, its
    description is set. *)
Definition tableDescriptionFieldChangeHandler {C : Type} (v : string)
    (table_index schema_index : nat) (options : connection_options C)
  : connection_options C :=
  match options !! schema_index with
  | Some s =>
      match tables s !! table_index with
      | Some t =>
          <[schema_index :=
              Schema (schema_name s) (schema_enabled s)
                (<[table_index :=
                     Table (table_name t) (table_enabled t) (columns t) (Some v)]>
                   (tables s))]> options
      | None => options
      end
  | None => options
  end.

(** What the table switch shows: [table.enabled && schema.enabled]. *)
Definition table_checked {C : Type} (options : connection_options C)
    (schema_index table_index : nat) : option bool :=
  match options !! schema_index with
  | Some s =>
      match tables s !! table_index with
      | Some t => Some (table_enabled t && schema_enabled s)%bool
      | None => None
      end
  | None => None
  end.

End SchemaEditor.

(** ** [classNames] *)

Module ClassNames.
Import JS.

(** [Array.prototype.join]. *)
Fixpoint join (sep : jsstring) (l : list jsstring) : jsstring :=
  match l with
  | [] => []
  | [x] => x
  | x :: l' => x ++ sep ++ join sep l'
  end.

(** [classes.filter(Boolean).join(" ")]. *)
Definition classNames (classes : list jsstring) : jsstring :=
  join (js " ") (List.filter Renderer.truthy classes).

(** A run as a token, unless it is empty. *)
Definition token_of (cur : jsstring) : list jsstring :=
  match cur with
  | [] => []
  | _ :: _ => [cur]
  end.

(** The class tokens of a [className] string: its maximal runs without
    a space, from the left; [cur] is the run being read. *)
Fixpoint tokens_from (cur : jsstring) (s : jsstring) : list jsstring :=
  match s with
  | [] => token_of cur
  | c :: s' =>
      if bool_decide (c = " "%char) then token_of cur ++ tokens_from [] s'
      else tokens_from (cur ++ [c]) s'
  end.

Definition tokens (s : jsstring) : list jsstring := tokens_from [] s.

End ClassNames.

(** ** Facts about the renderer *)

Module RendererFacts.
Import JS Renderer Spec.

Lemma span_not_spec cl s body rest :
  span_not cl s = (body, rest) ->
  s = body ++ rest /\ (cl ∉ body) /\ (rest = [] \/ exists r, rest = cl :: r).
Proof.
  revert body rest. induction s as [|c s IH]; intros body rest; simpl.
  - intros [= <- <-]. split; [done|]. split; [apply not_elem_of_nil | by left].
  - case_bool_decide as Hc.
    + intros [= <- <-]. subst c. split; [done|].
      split; [apply not_elem_of_nil | right; eauto].
    + destruct (span_not cl s) as [b r] eqn:E. intros [= <- <-].
      destruct (IH b r eq_refl) as (-> & Hb & Hr).
      split; [done|]. split; [|done].
      rewrite not_elem_of_cons. split; [congruence | done].
Qed.

Lemma span_not_stop cl g rest :
  cl ∉ g -> span_not cl (g ++ cl :: rest) = (g, cl :: rest).
Proof.
  induction g as [|c g IH]; simpl; intros Hg.
  - by rewrite bool_decide_eq_true_2.
  - apply not_elem_of_cons in Hg as [Hc Hg].
    rewrite bool_decide_eq_false_2 by congruence. by rewrite IH.
Qed.

Lemma match_bracket_here_Some op cl s g rest :
  match_bracket_here op cl s = Some (g, rest) ->
  s = op :: g ++ cl :: rest /\ g <> [] /\ cl ∉ g.
Proof.
  destruct s as [|c s]; simpl; [done|].
  case_bool_decide as Hc; [|done]. subst c.
  destruct (span_not cl s) as [b r] eqn:E.
  apply span_not_spec in E as (-> & Hb & Hr).
  destruct b as [|b0 b]; [done|]. destruct r as [|r0 r]; [done|].
  intros [= <- <-]. destruct Hr as [|[r' [= -> ->]]]; done.
Qed.

Lemma match_bracket_here_intro op cl g rest :
  g <> [] -> cl ∉ g ->
  match_bracket_here op cl (op :: g ++ cl :: rest) = Some (g, rest).
Proof.
  intros Hg Hcl. simpl. rewrite bool_decide_eq_true_2 by done.
  rewrite span_not_stop by done. by destruct g.
Qed.

Lemma match_bracket_here_other op cl c s :
  c <> op -> match_bracket_here op cl (c :: s) = None.
Proof. intros Hc. simpl. by rewrite bool_decide_eq_false_2. Qed.

Lemma match_here_Some s m :
  match_here s = Some m -> em_before m = [] /\ match_of s m.
Proof.
  unfold match_here.
  destruct (match_bracket_here "<" ">" s) as [[g rest]|] eqn:E1.
  - intros [= <-]. apply match_bracket_here_Some in E1 as (-> & Hg & Hcl).
    split; [done|]. exists g. split; [done|]. left. done.
  - destruct (match_bracket_here "[" "]" s) as [[g rest]|] eqn:E2; [|done].
    intros [= <-]. apply match_bracket_here_Some in E2 as (-> & Hg & Hcl).
    split; [done|]. exists g. split; [done|]. right. done.
Qed.

Lemma match_here_None s : match_here s = None -> ~ bracket_form_at s.
Proof.
  unfold match_here. intros H (op & cl & g & rest & Hk & -> & Hg & Hcl).
  unfold bracket_kinds in Hk.
  apply elem_of_cons in Hk as [[= -> ->]|Hk].
  - by rewrite match_bracket_here_intro in H.
  - apply list_elem_of_singleton in Hk as [= -> ->].
    rewrite match_bracket_here_other in H by done.
    by rewrite match_bracket_here_intro in H.
Qed.


Lemma match_of_length s m : match_of s m -> length (em_rest m) + 3 <= length s.
Proof.
  intros (g & Hg & [(_ & _ & _ & ->)|(_ & _ & _ & ->)]);
    destruct g; try done; rewrite !length_app; simpl;
    rewrite ?length_app; simpl; lia.
Qed.

Lemma match_of_cons c s m :
  match_of s m ->
  match_of (c :: s)
    (ExecMatch (c :: em_before m) (em_group1 m) (em_group2 m) (em_rest m)).
Proof.
  intros (g & Hg & [(H1 & H2 & Hcl & ->)|(H1 & H2 & Hcl & ->)]);
    exists g; (split; [done|]); [left|right]; done.
Qed.

Lemma regex_exec_Some s m :
  regex_exec s = Some m ->
  match_of s m
  /\ forall i, i < length (em_before m) -> ~ bracket_form_at (drop i s).
Proof.
  revert m. induction s as [|c s IH]; intros m; simpl.
  - done.
  - destruct (match_here (c :: s)) as [m'|] eqn:E.
    + intros [= <-]. apply match_here_Some in E as [-> Hm].
      split; [done|]. simpl. lia.
    + destruct (regex_exec s) as [m'|] eqn:E'; [|done].
      intros [= <-]. destruct (IH m' eq_refl) as [Hm Hbefore].
      split; [by apply match_of_cons|].
      simpl. intros [|i] Hi.
      * by apply match_here_None.
      * apply Hbefore. lia.
Qed.

Lemma regex_exec_None s :
  regex_exec s = None -> forall i, ~ bracket_form_at (drop i s).
Proof.
  induction s as [|c s IH]; simpl.
  - intros _ i. rewrite drop_nil. by apply match_here_None.
  - destruct (match_here (c :: s)) eqn:E; [done|].
    destruct (regex_exec s) eqn:E'; [done|]. intros _ [|i].
    + by apply match_here_None.
    + by apply IH.
Qed.


Lemma push_if_truthy_plain_run parts s :
  push_if_truthy parts s = parts ++ plain_run s.
Proof. destruct s; simpl; [by rewrite app_nil_r | done]. Qed.

Lemma parse_loop_acc fuel parts s :
  parse_loop fuel parts s = (fun l => parts ++ l) <$> parse_loop fuel [] s.
Proof.
  revert parts s. induction fuel as [|fuel IH]; intros parts s; simpl.
  - destruct (regex_exec s); [done|]. simpl.
    by rewrite !push_if_truthy_plain_run.
  - destruct (regex_exec s) as [m|].
    + rewrite IH. rewrite (IH (push_match [] m)).
      destruct (parse_loop fuel [] (em_rest m)) as [l|]; [|done]. simpl.
      f_equal. rewrite app_assoc. f_equal.
      unfold push_match. rewrite !push_if_truthy_plain_run. simpl.
      destruct (truthy_group (em_group1 m)); [by rewrite app_assoc|].
      destruct (truthy_group (em_group2 m)); [by rewrite app_assoc|done].
    + simpl. by rewrite !push_if_truthy_plain_run.
Qed.

Lemma parse_loop_scan fuel s :
  length s <= fuel ->
  exists parts, parse_loop fuel [] s = Some parts /\ scan s parts.
Proof.
  revert s. induction fuel as [|fuel IH]; intros s Hlen.
  - destruct s; [|simpl in Hlen; lia].
    exists []. split; [done|]. apply (scan_plain []).
    intros i. rewrite drop_nil. by apply match_here_None.
  - simpl. destruct (regex_exec s) as [m|] eqn:E.
    + apply regex_exec_Some in E as [Hm Hbefore].
      pose proof (match_of_length _ _ Hm) as Hrest.
      destruct (IH (em_rest m)) as (parts & Hparts & Hscan); [lia|].
      rewrite parse_loop_acc, Hparts. simpl.
      destruct Hm as (g & Hg & [(H1 & H2 & Hcl & Hs)|(H1 & H2 & Hcl & Hs)]);
        unfold push_match; rewrite push_if_truthy_plain_run, H1, ?H2;
        destruct g as [|g0 g]; try done; simpl truthy_group; cbv iota;
        eexists; (split; [reflexivity|]); rewrite Hs in Hbefore |- *;
        simpl default; rewrite <- app_assoc; simpl.
      * by apply (scan_glossary (em_before m) (g0 :: g) (em_rest m) parts).
      * by apply (scan_unique_key (em_before m) (g0 :: g) (em_rest m) parts).
    + exists (plain_run s). split.
      * by rewrite push_if_truthy_plain_run.
      * apply scan_plain. by apply regex_exec_None.
Qed.

Lemma plain_run_source s : concat (node_source <$> plain_run s) = s.
Proof. destruct s; simpl; [done|]. by rewrite app_nil_r. Qed.

Lemma scan_source s parts : scan s parts -> concat (node_source <$> parts) = s.
Proof.
  induction 1 as [s _|before g rest parts _ _ _ _ IH|before g rest parts _ _ _ _ IH].
  - apply plain_run_source.
  - rewrite fmap_app, concat_app, plain_run_source, fmap_cons.
    cbn [concat node_source]. rewrite IH. by rewrite <- !app_assoc.
  - rewrite fmap_app, concat_app, plain_run_source, fmap_cons.
    cbn [concat node_source]. rewrite IH. by rewrite <- !app_assoc.
Qed.




Lemma scan_form_at before op cl g rest :
  (op, cl) ∈ bracket_kinds -> g <> [] -> cl ∉ g ->
  bracket_form_at (drop (length before) (before ++ op :: g ++ cl :: rest)).
Proof.
  intros Hk Hg Hcl. rewrite drop_app_length. by exists op, cl, g, rest.
Qed.

(** Two ways of cutting one text at its leftmost bracket form agree. *)
Lemma leftmost_form_unique s before1 op1 cl1 g1 rest1 before2 op2 cl2 g2 rest2 :
  s = before1 ++ op1 :: g1 ++ cl1 :: rest1 ->
  s = before2 ++ op2 :: g2 ++ cl2 :: rest2 ->
  (op1, cl1) ∈ bracket_kinds -> g1 <> [] -> cl1 ∉ g1 ->
  (op2, cl2) ∈ bracket_kinds -> g2 <> [] -> cl2 ∉ g2 ->
  (forall i, i < length before1 -> ~ bracket_form_at (drop i s)) ->
  (forall i, i < length before2 -> ~ bracket_form_at (drop i s)) ->
  before1 = before2 /\ op1 = op2 /\ (cl1 = cl2 -> g1 = g2 /\ rest1 = rest2).
Proof.
  intros Hs1 Hs2 Hk1 Hg1 Hcl1 Hk2 Hg2 Hcl2 Hno1 Hno2.
  assert (length before1 = length before2) as Hlen.
  { destruct (Nat.lt_trichotomy (length before1) (length before2))
      as [Hlt|[Hlen|Hlt]]; [|done|].
    - exfalso. apply (Hno2 _ Hlt). rewrite Hs1. by apply scan_form_at.
    - exfalso. apply (Hno1 _ Hlt). rewrite Hs2. by apply scan_form_at. }
  rewrite Hs1 in Hs2. apply app_inj_1 in Hs2 as [Hbefore Htail]; [|done].
  injection Htail as Hop Htail. split; [done|]. split; [done|].
  intros <-. pose proof (span_not_stop cl1 g1 rest1 Hcl1) as Hsplit.
  rewrite Htail, (span_not_stop cl1 g2 rest2 Hcl2) in Hsplit.
  by injection Hsplit as -> ->.
Qed.

Lemma scan_functional s parts1 parts2 :
  scan s parts1 -> scan s parts2 -> parts1 = parts2.
Proof.
  assert (("<"%char, ">"%char) ∈ bracket_kinds) as Hangle
    by (apply elem_of_cons; by left).
  assert (("["%char, "]"%char) ∈ bracket_kinds) as Hsquare
    by (apply elem_of_cons; right; apply elem_of_cons; by left).
  intros H1. revert parts2.
  induction H1 as [s Hno|before g rest parts Hno Hg Hcl _ IH
                   |before g rest parts Hno Hg Hcl _ IH];
    intros parts2 H2;
    inversion H2 as [s' Hno'
                    |before' g' rest' parts' Hno' Hg' Hcl' Hrest' Heq
                    |before' g' rest' parts' Hno' Hg' Hcl' Hrest' Heq];
    subst;
    try (assert (forall i, i < length before' ->
                   ~ bracket_form_at
                       (drop i (before ++ "<"%char :: g ++ ">"%char :: rest)))
           as Hno'' by (intros i Hi; rewrite <- Heq; by apply Hno'));
    try (assert (forall i, i < length before' ->
                   ~ bracket_form_at
                       (drop i (before ++ "["%char :: g ++ "]"%char :: rest)))
           as Hno'' by (intros i Hi; rewrite <- Heq; by apply Hno')).
  - done.
  - exfalso. apply (Hno (length before')). by apply scan_form_at.
  - exfalso. apply (Hno (length before')). by apply scan_form_at.
  - exfalso. apply (Hno' (length before)). by apply scan_form_at.
  - destruct (leftmost_form_unique _ before "<" ">" g rest
                before' "<" ">" g' rest' eq_refl (eq_sym Heq)
                Hangle Hg Hcl Hangle Hg' Hcl' Hno Hno'')
      as (<- & _ & Hsame).
    destruct (Hsame eq_refl) as [<- <-]. by rewrite (IH parts').
  - by destruct (leftmost_form_unique _ before "<" ">" g rest
                   before' "[" "]" g' rest' eq_refl (eq_sym Heq)
                   Hangle Hg Hcl Hsquare Hg' Hcl' Hno Hno'')
      as (_ & Hop & _).
  - exfalso. apply (Hno' (length before)). by apply scan_form_at.
  - by destruct (leftmost_form_unique _ before "[" "]" g rest
                   before' "<" ">" g' rest' eq_refl (eq_sym Heq)
                   Hsquare Hg Hcl Hangle Hg' Hcl' Hno Hno'')
      as (_ & Hop & _).
  - destruct (leftmost_form_unique _ before "[" "]" g rest
                before' "[" "]" g' rest' eq_refl (eq_sym Heq)
                Hsquare Hg Hcl Hsquare Hg' Hcl' Hno Hno'')
      as (<- & _ & Hsame).
    destruct (Hsame eq_refl) as [<- <-]. by rewrite (IH parts').
Qed.

Lemma parse_total_scan text :
  exists parts, parseMessageContent text = Some parts /\ scan text parts.
Proof. apply parse_loop_scan. done. Qed.

End RendererFacts.

(** ** Facts about the platform string operations *)

Module StringFacts.
Import JS Spec.

Lemma forallb_reverse {A} (f : A -> bool) (l : list A) :
  forallb f (reverse l) = forallb f l.
Proof.
  induction l as [|x l IH]; [done|].
  rewrite reverse_cons, forallb_app, IH. simpl.
  rewrite andb_true_r. apply andb_comm.
Qed.

Lemma take_while_word_split l :
  exists rest,
    l = take_while_word l ++ rest
    /\ forallb is_word_char (take_while_word l) = true
    /\ (rest = [] \/ exists c r, rest = c :: r /\ is_word_char c = false).
Proof.
  induction l as [|c l (rest & Hl & Hw & Hrest)]; simpl.
  - exists []. split; [done|]. split; [done|by left].
  - destruct (is_word_char c) eqn:Hc.
    + exists rest. simpl. rewrite Hc, Hw. split; [by rewrite <- Hl|done].
    + exists (c :: l). split; [done|]. split; [done|]. right. eauto.
Qed.

Lemma trailing_word_run_spec s : is_trailing_word_run s (trailing_word_run s).
Proof.
  unfold trailing_word_run.
  destruct (take_while_word_split (reverse s)) as (rest & Hs & Hw & Hrest).
  exists (reverse rest). split; [|split].
  - rewrite <- reverse_app, <- Hs. by rewrite reverse_involutive.
  - by rewrite forallb_reverse.
  - destruct Hrest as [->|(c & r & -> & Hc)]; [by left|right].
    exists (reverse r), c. by rewrite reverse_cons.
Qed.

Lemma match_word3_to_end_short s :
  length s < 3 -> match_word3_to_end s = None.
Proof.
  induction s as [|c s IH]; [done|]. intros Hlen. simpl in Hlen.
  cbn [match_word3_to_end]. unfold word3_to_end_here.
  replace (3 <=? length (c :: s)) with false
    by (symmetry; apply Nat.leb_gt; simpl; lia).
  rewrite andb_false_r. apply IH. lia.
Qed.

Lemma match_word3_to_end_all_word s :
  forallb is_word_char s = true ->
  match_word3_to_end s = if 3 <=? length s then Some s else None.
Proof.
  intros Hw. destruct (3 <=? length s) eqn:Hlen.
  - destruct s as [|c s]; [done|]. cbn [match_word3_to_end].
    unfold word3_to_end_here. by rewrite Hw, Hlen.
  - apply match_word3_to_end_short. by apply Nat.leb_gt.
Qed.

Lemma forallb_app_nonword (pre : list ascii) c run :
  is_word_char c = false -> forallb is_word_char (pre ++ c :: run) = false.
Proof.
  intros Hc. rewrite forallb_app. simpl. rewrite Hc.
  apply andb_false_r.
Qed.

(** The leftmost search of the engine finds the maximal run. *)
Lemma match_word3_to_end_of_run s run :
  is_trailing_word_run s run ->
  match_word3_to_end s = if 3 <=? length run then Some run else None.
Proof.
  intros (pre & -> & Hw & Hpre). induction pre as [|c pre IH].
  - by apply match_word3_to_end_all_word.
  - destruct Hpre as [|(pre' & x & Hpre & Hx)]; [done|].
    assert (forallb is_word_char (c :: pre ++ run) = false) as Hnw.
    { change (c :: pre ++ run) with ((c :: pre) ++ run).
      rewrite Hpre, <- app_assoc. by apply forallb_app_nonword. }
    cbn [app match_word3_to_end]. unfold word3_to_end_here.
    rewrite Hnw, andb_false_l. apply IH.
    destruct pre' as [|c' pre'].
    + injection Hpre as -> <-. by left.
    + injection Hpre as -> ->. right. eauto.
Qed.

Lemma match_word3_to_end_trailing s :
  match_word3_to_end s =
    if 3 <=? length (trailing_word_run s) then Some (trailing_word_run s)
    else None.
Proof. apply match_word3_to_end_of_run, trailing_word_run_spec. Qed.

Lemma starts_with_spec q s :
  starts_with q s = true <-> exists post, s = q ++ post.
Proof.
  revert s. induction q as [|a q IH]; intros s; simpl.
  - split; eauto.
  - destruct s as [|b s].
    + split; [done|]. by intros [post ?].
    + rewrite andb_true_iff, bool_decide_eq_true, IH. split.
      * intros [-> [post ->]]. eauto.
      * intros [post [= -> ->]]. eauto.
Qed.

Lemma includes_spec s q : includes s q = true <-> contains s q.
Proof.
  induction s as [|c s IH]; simpl.
  - rewrite orb_false_r, starts_with_spec. split.
    + intros [post ->]. by exists [], post.
    + intros (pre & post & H). exists post.
      destruct pre; [done|]. discriminate H.
  - rewrite orb_true_iff, starts_with_spec, IH. split.
    + intros [[post ->]|(pre & post & ->)].
      * by exists [], post.
      * by exists (c :: pre), post.
    + intros (pre & post & H). destruct pre as [|c' pre].
      * left. eauto.
      * right. injection H as -> ->. by exists pre, post.
Qed.

#[global] Instance contains_dec s q : Decision (contains s q).
Proof.
  destruct (includes s q) eqn:E.
  - left. by apply includes_spec.
  - right. intros H. apply includes_spec in H. congruence.
Defined.

(** The Boolean filter of the code is the filter by the property. *)
Lemma filter_bool_prop {A} (f : A -> bool) (P : A -> Prop)
    `{!forall x, Decision (P x)} (l : list A) :
  (forall x, f x = true <-> P x) -> List.filter f l = filter P l.
Proof.
  intros Hf. induction l as [|x l IH]; [done|]. simpl.
  rewrite filter_cons. destruct (decide (P x)) as [HP|HP].
  - apply Hf in HP. by rewrite HP, IH.
  - destruct (f x) eqn:E; [by apply Hf in E|done].
Qed.

End StringFacts.

(** ** Facts about the composer *)

Module ComposerFacts.
Import JS Composer Spec StringFacts.

Lemma match_word3_to_end_Some s m1 :
  match_word3_to_end s = Some m1 ->
  is_trailing_word_run s m1 /\ 3 <= length m1.
Proof.
  rewrite match_word3_to_end_trailing.
  destruct (3 <=? length (trailing_word_run s)) eqn:Hlen; [|done].
  intros [= <-]. split; [apply trailing_word_run_spec|].
  by apply Nat.leb_le.
Qed.

Lemma tags_include_elem_of l t :
  tags_include (Some l) t = bool_decide (t ∈ l).
Proof.
  simpl. induction l as [|x l IH]; simpl.
  - done.
  - rewrite IH. apply eq_true_iff_eq.
    rewrite orb_true_iff, !bool_decide_eq_true, elem_of_cons.
    split; intros [->|?]; auto.
Qed.

Lemma tags_include_default tags t :
  tags_include tags t = bool_decide (t ∈ default [] tags).
Proof.
  destruct tags as [l|]; [apply tags_include_elem_of|].
  done.
Qed.

(** [handleChange] in terms of the maximal run before the cursor. *)
Lemma handleChange_run p value cursorPos st :
  let run := trailing_word_run (slice_to cursorPos value) in
  handleChange p value cursorPos st =
    if 3 <=? length run then
      let filtered :=
        List.filter (fun s => includes (toLowerCase s) (toLowerCase run))
                    (suggestions p) in
      State value filtered (0 <? length filtered) 0%Z
    else State value (filteredSuggestions st) false 0%Z.
Proof.
  intros run. unfold handleChange.
  rewrite match_word3_to_end_trailing. fold run.
  by destruct (3 <=? length run).
Qed.

Lemma dict_get_key (d : dictionary) k :
  k ∈ map fst d -> is_Some (dict_get d k).
Proof.
  induction d as [|[k' tags] d IH]; simpl; [by intros ?%elem_of_nil|].
  intros Hin. case_bool_decide as Hk; [done|].
  apply elem_of_cons in Hin as [->|Hin]; [done|]. by apply IH.
Qed.

Lemma handleSubmit_keeps_list p st :
  filteredSuggestions (handleSubmit p st).1 = filteredSuggestions st
  /\ selectedIndex (handleSubmit p st).1 = selectedIndex st.
Proof. unfold handleSubmit. by destruct (_ || _)%bool. Qed.

Lemma insertSuggestionAtCaret_keeps_list p ta st suggestion :
  let st' := (insertSuggestionAtCaret p ta st suggestion).1 in
  filteredSuggestions st' = filteredSuggestions st
  /\ (selectedIndex st' = selectedIndex st \/ selectedIndex st' = 0%Z).
Proof.
  unfold insertSuggestionAtCaret. destruct ta as [t|]; [|by split; [|left]].
  destruct (autoCompleteList p) as [d|]; [|by split; [|left]].
  destruct (_ && _)%bool; [by split; [|left]|].
  destruct (wrap _ _); simpl; by split; [|right].
Qed.

(** Where the selection lies in a text that is split at its two ends. *)
Lemma slices_of_split (before word selected after : jsstring) :
  slice_to (length (before ++ word)) (before ++ word ++ selected ++ after)
  = before ++ word
  /\ substring_from (length (before ++ word ++ selected))
       (before ++ word ++ selected ++ after) = after
  /\ slice_to (length (before ++ word) - length word)
       (before ++ word ++ selected ++ after) = before.
Proof.
  unfold slice_to, substring_from. split; [|split].
  - rewrite (app_assoc before word). apply take_app_length.
  - rewrite !app_assoc. apply drop_app_length.
  - rewrite length_app.
    replace (length before + length word - length word) with (length before)
      by lia.
    apply take_app_length.
Qed.

(** The wrapper chosen for a candidate with the tags of the dictionary. *)
Lemma wrap_of_tags (D : dictionary) (candidate : jsstring) :
  let tags := default [] (dict_get D candidate) in
  wrap (dict_get D candidate) (Some candidate)
  = Some (if bool_decide (js "uniqueKey" ∈ tags)
          then js "[" ++ candidate ++ js "]"
          else if bool_decide (js "glossary" ∈ tags)
               then js "<" ++ candidate ++ js ">"
               else candidate).
Proof.
  intros tags. unfold wrap, tags. rewrite !tags_include_default. simpl to_text.
  destruct (bool_decide (js "uniqueKey" ∈ _)); [done|].
  by destruct (bool_decide (js "glossary" ∈ _)).
Qed.

(** Accepting a key of the dictionary, by the word found before the
    selection. *)
Lemma insert_key_of_dictionary p D st t candidate :
  autoCompleteList p = Some D ->
  candidate ∈ map fst D ->
  let start := selectionStart t in
  let replaceStart :=
    replace_start (slice_to start (inputValue st)) start in
  let tags := default [] (dict_get D candidate) in
  let wrapped :=
    if bool_decide (js "uniqueKey" ∈ tags) then js "[" ++ candidate ++ js "]"
    else if bool_decide (js "glossary" ∈ tags) then js "<" ++ candidate ++ js ">"
    else candidate in
  insertSuggestionAtCaret p (Some t) st (Some candidate)
  = (State (slice_to replaceStart (inputValue st) ++ wrapped ++ js " "
            ++ substring_from (selectionEnd t) (inputValue st))
       (filteredSuggestions st) false 0%Z,
     [SetSelectionRange (replaceStart + length wrapped + 1)
        (replaceStart + length wrapped + 1); Focus]).
Proof.
  intros HD Hkey start replaceStart tags wrapped.
  destruct (dict_get_key D candidate Hkey) as [l Hl].
  unfold insertSuggestionAtCaret. rewrite HD. simpl to_text.
  rewrite (wrap_of_tags D candidate). fold tags. fold wrapped.
  rewrite Hl. rewrite bool_decide_eq_false_2 by done. done.
Qed.

Lemma bounded_zero st :
  selectedIndex st = 0%Z -> bounded st.
Proof.
  intros H0 Hne. unfold index_in_bounds. rewrite H0.
  destruct (filteredSuggestions st); [done|]. simpl length. lia.
Qed.

Lemma bounded_same st st' :
  filteredSuggestions st' = filteredSuggestions st ->
  selectedIndex st' = selectedIndex st \/ selectedIndex st' = 0%Z ->
  bounded st -> bounded st'.
Proof.
  intros Hf [Hi|Hi] Hb; [|by apply bounded_zero].
  unfold bounded, index_in_bounds. rewrite Hf, Hi. done.
Qed.

Lemma handleChange_index p value cursorPos st :
  selectedIndex (handleChange p value cursorPos st) = 0%Z.
Proof. unfold handleChange. by destruct (match_word3_to_end _). Qed.

Lemma handleKeyPress_bounded p ta st e :
  bounded st -> bounded (handleKeyPress p ta st e).1.
Proof.
  intros Hb. unfold handleKeyPress, suggestion_keys.
  assert (bounded (enter_key p st e).1) as Henter.
  { unfold enter_key. destruct (_ && _)%bool; [|done].
    destruct (handleSubmit p st) as [st' effs] eqn:E. simpl.
    pose proof (handleSubmit_keeps_list p st) as [Hf Hi]. rewrite E in Hf, Hi.
    by apply (bounded_same st); [|left|]. }
  destruct (list_shown st) eqn:Hshown; [|done].
  assert (filteredSuggestions st <> []) as Hne.
  { unfold list_shown in Hshown. apply andb_true_iff in Hshown as [_ Hlen].
    apply Nat.ltb_lt in Hlen. intros Hnil. rewrite Hnil in Hlen.
    simpl in Hlen. lia. }
  destruct (Hb Hne) as [Hlo Hhi].
  destruct (String.eqb (key e) "ArrowDown").
  { simpl. intros _. unfold index_in_bounds. simpl.
    destruct (Z.ltb_spec (selectedIndex st)
                (Z.of_nat (length (filteredSuggestions st)) - 1)); lia. }
  destruct (String.eqb (key e) "ArrowUp").
  { simpl. intros _. unfold index_in_bounds. simpl.
    destruct (Z.ltb_spec 0 (selectedIndex st)); lia. }
  destruct (String.eqb (key e) "Tab").
  { destruct (insertSuggestionAtCaret p ta st _) as [st' effs] eqn:E. simpl.
    pose proof (insertSuggestionAtCaret_keeps_list p ta st
                  (array_get (filteredSuggestions st) (selectedIndex st)))
      as [Hf Hi].
    rewrite E in Hf, Hi. by apply (bounded_same st). }
  destruct (String.eqb (key e) "Escape"); [done|done].
Qed.

Lemma dispatch_bounded p ta st ev st' effs :
  dispatch p ta st ev = Some (st', effs) -> bounded st -> bounded st'.
Proof.
  destruct ev as [value cursorPos|e|index|index|]; simpl.
  - intros [= <- <-] _. apply bounded_zero, handleChange_index.
  - intros [= H] Hb. pose proof (handleKeyPress_bounded p ta st e Hb) as Hb'.
    by rewrite H in Hb'.
  - destruct (list_shown st); [|done].
    destruct (filteredSuggestions st !! index) as [s|]; [|done].
    intros [= H] Hb.
    pose proof (insertSuggestionAtCaret_keeps_list p ta st (Some s)) as [Hf Hi].
    rewrite H in Hf, Hi. by apply (bounded_same st).
  - destruct (list_shown st && _)%bool eqn:Hc; [|done].
    intros [= <- <-] _ _. apply andb_true_iff in Hc as [_ Hlt].
    apply Nat.ltb_lt in Hlt. unfold index_in_bounds. simpl. lia.
  - intros [= H] Hb. pose proof (handleSubmit_keeps_list p st) as [Hf Hi].
    rewrite H in Hf, Hi. by apply (bounded_same st); [|left|].
Qed.

Lemma reachable_bounded st : reachable st -> bounded st.
Proof.
  induction 1 as [|p ta st ev st' effs _ IH Hstep].
  - by intros [].
  - by apply (dispatch_bounded p ta st ev st' effs).
Qed.

(** In a reachable state with the list shown, Tab accepts the candidate
    under the highlighted index, which exists. *)
Lemma tab_accepts_highlighted p ta st e :
  reachable st -> list_shown st = true -> key e = "Tab"%string ->
  exists s,
    filteredSuggestions st !! Z.to_nat (selectedIndex st) = Some s
    /\ handleKeyPress p ta st e
       = ((insertSuggestionAtCaret p ta st (Some s)).1,
          PreventDefault :: (insertSuggestionAtCaret p ta st (Some s)).2).
Proof.
  intros Hreach Hshown Hkey.
  assert (index_in_bounds st) as [Hlo Hhi].
  { apply (reachable_bounded st Hreach). unfold list_shown in Hshown.
    apply andb_true_iff in Hshown as [_ Hlen]. apply Nat.ltb_lt in Hlen.
    intros Hnil. rewrite Hnil in Hlen. simpl in Hlen. lia. }
  destruct (lookup_lt_is_Some_2 (filteredSuggestions st)
              (Z.to_nat (selectedIndex st))) as [s Hs]; [lia|].
  exists s. split; [done|].
  unfold handleKeyPress, suggestion_keys, array_get.
  rewrite Hshown, Hkey. simpl.
  replace (selectedIndex st <? 0)%Z with false by (symmetry; apply Z.ltb_ge; lia).
  rewrite Hs. by destruct (insertSuggestionAtCaret p ta st (Some s)).
Qed.

End ComposerFacts.

(** ** Facts about the message options *)

Module MessageOptionsFacts.
Import MessageOptions.

Lemma read_undefined D s :
  readMessageOptionsFromLocalStorage D None s = (Obj D, s, []).
Proof. done. Qed.

Lemma read_marked D cid s :
  truthy_item (message_options_migration_v1 s) = true ->
  readMessageOptionsFromLocalStorage D (Some cid) s
  = (default (Obj D) (js_get (parse_or_empty (message_options s)) cid), s,
     [GetItem MIGRATION_KEY_V1; GetItem "message_options"]).
Proof.
  intros Hm. unfold readMessageOptionsFromLocalStorage, bind, getItem_migration.
  rewrite Hm. simpl. unfold plain_read, bind, getItem_message_options.
  by destruct (js_get (parse_or_empty (message_options s)) cid).
Qed.

Lemma read_unmarked D cid s :
  truthy_item (message_options_migration_v1 s) = false ->
  let migrated := force_secure_data_off <$> parse_or_empty (message_options s) in
  readMessageOptionsFromLocalStorage D (Some cid) s
  = (default (Obj D) (js_get migrated cid),
     LocalStorage (Some migrated) (Some "true"%string),
     [GetItem MIGRATION_KEY_V1; GetItem "message_options";
      SetItem "message_options"; SetItem MIGRATION_KEY_V1]
     ++ match js_get migrated cid with
        | Some _ => []
        | None => [GetItem "message_options"]
        end).
Proof.
  intros Hm migrated.
  unfold readMessageOptionsFromLocalStorage, bind, getItem_migration.
  rewrite Hm. simpl. fold migrated.
  destruct (js_get migrated cid) as [v|] eqn:E; simpl; [done|].
  unfold plain_read, bind, getItem_message_options. simpl. by rewrite E.
Qed.

Lemma force_secure_data_off_lookup (m : gmap string stored) k :
  (force_secure_data_off <$> m) !! k = force_secure_data_off <$> (m !! k).
Proof. apply lookup_fmap. Qed.

(** A lookup through the prototype chain sees the migration of an own
    entry, and the same inherited member before and after it. *)
Lemma js_get_force_secure_data_off (m : gmap string stored) k :
  js_get (force_secure_data_off <$> m) k = force_secure_data_off <$> js_get m k.
Proof.
  unfold js_get. rewrite lookup_fmap.
  destruct (m !! k); [done|]. by destruct (JS.inherited k).
Qed.

Lemma js_get_own (m : gmap string stored) k v :
  m !! k = Some v -> js_get m k = Some v.
Proof. unfold js_get. by intros ->. Qed.

Lemma js_get_plain (m : gmap string stored) k :
  JS.inherited k = false -> js_get m k = m !! k.
Proof. unfold js_get. intros ->. by destruct (m !! k). Qed.

(** An assignment under a key other than ["__proto__"], or under an own
    key, stores the value. *)
Lemma js_set_insert (m : gmap string stored) k v :
  k <> "__proto__"%string \/ is_Some (m !! k) -> js_set m k v = <[k := v]> m.
Proof.
  unfold js_set. intros [Hk|[w Hw]].
  - apply String.eqb_neq in Hk. by rewrite Hk.
  - rewrite Hw, bool_decide_eq_false_2 by done. by rewrite andb_false_r.
Qed.

(** The other case: nothing is stored, and the name stays inherited. *)
Lemma js_set_proto (m : gmap string stored) v :
  m !! "__proto__"%string = None -> js_set m "__proto__" v = m.
Proof. unfold js_set. intros ->. done. Qed.

Lemma js_set_cases (m : gmap string stored) k v :
  (js_set m k v = <[k := v]> m
   /\ (k <> "__proto__"%string \/ is_Some (m !! k)))
  \/ (js_set m k v = m /\ k = "__proto__"%string /\ m !! k = None).
Proof.
  destruct (decide (k = "__proto__"%string)) as [->|Hk].
  - destruct (m !! "__proto__"%string) as [w|] eqn:E.
    + left. split; [|by right]. apply js_set_insert. right. by rewrite E.
    + right. split; [by apply js_set_proto|done].
  - left. split; [|by left]. apply js_set_insert. by left.
Qed.

(** An assignment does not change what a lookup of another key gives. *)
Lemma js_get_js_set_ne (m : gmap string stored) k k' v :
  k <> k' -> js_get (js_set m k v) k' = js_get m k'.
Proof.
  intros Hne. destruct (js_set_cases m k v) as [[-> _]|[-> _]]; [|done].
  unfold js_get. by rewrite lookup_insert_ne.
Qed.

Lemma save_spec D cid changes s :
  let r := saveMessageOptionsToLocalStorage D cid changes s in
  message_options_migration_v1 r.1.2 = message_options_migration_v1 s
  /\ migration_passes r.2 = 0.
Proof. done. Qed.

Lemma run_operation_marked D op s :
  truthy_item (message_options_migration_v1 s) = true ->
  let r := run_operation D op s in
  truthy_item (message_options_migration_v1 r.1.2) = true
  /\ migration_passes r.2 = 0
  /\ (forall cid, op = Read cid -> r.1.2 = s /\ writes r.2 = []).
Proof.
  intros Hm. destruct op as [[cid|]|cid changes]; cbn [run_operation].
  - unfold bind. rewrite read_marked by done. simpl.
    split; [done|]. split; [done|]. done.
  - split; [done|]. split; [done|]. done.
  - split; [done|]. split; [done|]. done.
Qed.

Lemma migration_passes_app l1 l2 :
  migration_passes (l1 ++ l2) = migration_passes l1 + migration_passes l2.
Proof. unfold migration_passes. by rewrite List.filter_app, length_app. Qed.

Lemma run_operations_marked D ops s :
  truthy_item (message_options_migration_v1 s) = true ->
  let r := run_operations D ops s in
  truthy_item (message_options_migration_v1 r.1.2) = true
  /\ migration_passes r.2 = 0.
Proof.
  revert s. induction ops as [|op ops IH]; intros s Hm; [done|].
  simpl. unfold bind.
  destruct (run_operation_marked D op s Hm) as (Hm1 & Hp1 & _).
  destruct (run_operation D op s) as [[u s1] l1]. simpl in Hm1, Hp1.
  destruct (IH s1 Hm1) as (Hm2 & Hp2).
  destruct (run_operations D ops s1) as [[u2 s2] l2]. simpl in *.
  split; [done|]. rewrite migration_passes_app. lia.
Qed.

Lemma run_operation_unmarked D op s :
  truthy_item (message_options_migration_v1 s) = false ->
  let r := run_operation D op s in
  (truthy_item (message_options_migration_v1 r.1.2) = false
   /\ migration_passes r.2 = 0)
  \/ (truthy_item (message_options_migration_v1 r.1.2) = true
      /\ migration_passes r.2 = 1).
Proof.
  intros Hm. destruct op as [[cid|]|cid changes]; cbn [run_operation].
  - right. unfold bind. rewrite read_unmarked by done. simpl.
    split; [done|]. by destruct (js_get _ cid).
  - by left.
  - by left.
Qed.

Lemma run_operations_at_most_once D ops s :
  migration_passes (run_operations D ops s).2 <= 1.
Proof.
  revert s. induction ops as [|op ops IH]; intros s; [by repeat constructor|].
  simpl. unfold bind.
  destruct (truthy_item (message_options_migration_v1 s)) eqn:Hm.
  - pose proof (run_operations_marked D (op :: ops) s Hm) as [_ Hp].
    simpl in Hp. unfold bind in Hp. rewrite Hp. lia.
  - destruct (run_operation_unmarked D op s Hm) as [[Hm1 Hp1]|[Hm1 Hp1]];
      destruct (run_operation D op s) as [[u s1] l1]; simpl in Hm1, Hp1.
    + specialize (IH s1).
      destruct (run_operations D ops s1) as [[u2 s2] l2]. simpl in *.
      rewrite migration_passes_app. lia.
    + destruct (run_operations_marked D ops s1 Hm1) as [_ Hp2].
      destruct (run_operations D ops s1) as [[u2 s2] l2]. simpl in *.
      rewrite migration_passes_app. lia.
Qed.

End MessageOptionsFacts.

(** ** The composer: the keyboard contract, filtering and insertion *)

Module ComposerClaims.
Import JS Composer Spec StringFacts ComposerFacts.

Lemma is_trailing_word_run_unique s run :
  is_trailing_word_run s run -> run = trailing_word_run s.
Proof.
  intros (pre & -> & Hw & Hpre). unfold trailing_word_run.
  rewrite reverse_app.
  assert (forall a b : jsstring,
            forallb is_word_char a = true ->
            (b = [] \/ exists c r, b = c :: r /\ is_word_char c = false) ->
            take_while_word (a ++ b) = a) as Happ.
  { intros a b Ha Hb. induction a as [|x a IH]; simpl.
    - destruct Hb as [->|(c & r & -> & Hc)]; [done|]. simpl. by rewrite Hc.
    - simpl in Ha. apply andb_true_iff in Ha as [Hx Ha].
      by rewrite Hx, IH. }
  rewrite Happ.
  - by rewrite reverse_involutive.
  - by rewrite forallb_reverse.
  - destruct Hpre as [->|(pre' & c & -> & Hc)]; [by left|right].
    exists c, (reverse pre'). by rewrite reverse_app.
Qed.

(** C6. After a text change of the text [value] with the cursor at
    [cursorPos], the text before the cursor is the part [before] of any
    split [value = before ++ after] at the cursor (not the whole text),
    and: the query is the maximal run of word characters that ends at
    the cursor ([trailing_word_run], which is the one run
    [is_trailing_word_run] admits) when that run has three characters or
    more, and there is none otherwise; in the second case [handleChange]
    hides the suggestions. With a query, the candidates are filtered by
    its lowercase form. *)
Theorem in_progress_query_is_trailing_word_run
    (p : props) (value : jsstring) (cursorPos : nat) (st : state) :
  let textBeforeCursor := slice_to cursorPos value in
  let run := trailing_word_run textBeforeCursor in
  (forall before after,
     value = before ++ after -> cursorPos = length before ->
     textBeforeCursor = before /\ is_trailing_word_run before run)
  /\ is_trailing_word_run textBeforeCursor run
  /\ (forall run', is_trailing_word_run textBeforeCursor run' -> run' = run)
  /\ match_word3_to_end textBeforeCursor
     = (if 3 <=? length run then Some run else None)
  /\ handleChange p value cursorPos st
     = (if 3 <=? length run then
          let filtered :=
            List.filter (fun s => includes (toLowerCase s) (toLowerCase run))
                        (suggestions p) in
          State value filtered (0 <? length filtered) 0%Z
        else State value (filteredSuggestions st) false 0%Z).
Proof.
  intros textBeforeCursor run. split.
  { intros before after -> ->.
    assert (textBeforeCursor = before) as Hbefore.
    { unfold textBeforeCursor, slice_to. apply take_app_length. }
    split; [exact Hbefore|]. rewrite <- Hbefore. apply trailing_word_run_spec. }
  split; [apply trailing_word_run_spec|].
  split; [apply is_trailing_word_run_unique|].
  split; [apply match_word3_to_end_trailing|].
  apply handleChange_run.
Qed.

(** The cursor in the middle of the text, followed by word characters:
    the query is the run before the cursor, ["cus"], not the run at the
    end of the text. *)
Lemma in_progress_query_is_trailing_word_run_witness :
  let p := Props false (Some [(js "customer_id", [js "uniqueKey"]);
                              (js "more_info", [])]) in
  let st' := handleChange p (js "show cus and more") 8 initial in
  slice_to 8 (js "show cus and more") = js "show cus"
  /\ is_trailing_word_run (js "show cus") (js "cus")
  /\ match_word3_to_end (slice_to 8 (js "show cus and more")) = Some (js "cus")
  /\ st' = State (js "show cus and more") [js "customer_id"] true 0%Z
  /\ handleChange p (js "ab cd") 2 initial = State (js "ab cd") [] false 0%Z.
Proof.
  intros p st'.
  destruct (in_progress_query_is_trailing_word_run p (js "show cus and more") 8
              initial) as (Hsplit & _ & _ & Hmatch & Hchange).
  destruct (Hsplit (js "show cus") (js " and more") eq_refl eq_refl)
    as [Hbefore Hrun].
  destruct (in_progress_query_is_trailing_word_run p (js "ab cd") 2 initial)
    as (_ & _ & _ & _ & Hshort).
  split; [exact Hbefore|]. split; [exact Hrun|]. split; [exact Hmatch|].
  split; [exact Hchange|exact Hshort].
Defined.

(** C5. When a text change leaves the query [q] before the cursor, the
    filtered list is the keys of the dictionary [D], in the order of
    [D], that contain the lowercase of [q] as a substring once in
    lowercase themselves; the list is shown exactly when it is not
    empty, and the highlighted index is 0. *)
Theorem filtered_candidates_are_matching_keys
    (dis : bool) (D : dictionary) (value : jsstring) (cursorPos : nat)
    (st : state) (q : jsstring) :
  match_word3_to_end (slice_to cursorPos value) = Some q ->
  let st' := handleChange (Props dis (Some D)) value cursorPos st in
  filteredSuggestions st'
  = filter (fun k => contains (toLowerCase k) (toLowerCase q)) (map fst D)
  /\ (forall k, k ∈ filteredSuggestions st'
                <-> contains (toLowerCase k) (toLowerCase q) /\ k ∈ map fst D)
  /\ sublist (filteredSuggestions st') (map fst D)
  /\ showSuggestions st' = bool_decide (filteredSuggestions st' <> [])
  /\ list_shown st' = bool_decide (filteredSuggestions st' <> [])
  /\ selectedIndex st' = 0%Z.
Proof.
  intros Hq st'.
  assert (filteredSuggestions st'
          = filter (fun k => contains (toLowerCase k) (toLowerCase q))
                   (map fst D)) as Hf.
  { unfold st', handleChange. rewrite Hq. simpl.
    apply filter_bool_prop. intros k. apply includes_spec. }
  assert (showSuggestions st' = (0 <? length (filteredSuggestions st')))
    as Hshow by (unfold st', handleChange; by rewrite Hq).
  assert ((0 <? length (filteredSuggestions st'))
          = bool_decide (filteredSuggestions st' <> [])) as Hlen.
  { by destruct (filteredSuggestions st'). }
  split; [done|]. split; [|split; [|split; [|split]]].
  - intros k. rewrite Hf.
    apply (list_elem_of_filter
             (fun k => contains (toLowerCase k) (toLowerCase q))).
  - rewrite Hf. apply sublist_filter.
  - by rewrite Hshow.
  - unfold list_shown. rewrite Hshow, <- Hlen. apply andb_diag.
  - unfold st', handleChange. by rewrite Hq.
Qed.

Lemma filtered_candidates_are_matching_keys_witness :
  let D := [(js "customer_id", [js "uniqueKey"]); (js "revenue", [js "glossary"]);
            (js "Focus_Group", []); (js "CUSTOMER", [])] in
  let st' := handleChange (Props false (Some D)) (js "show Cus") 8 initial in
  match_word3_to_end (slice_to 8 (js "show Cus")) = Some (js "Cus")
  /\ filteredSuggestions st' = [js "customer_id"; js "Focus_Group"; js "CUSTOMER"]
  /\ list_shown st' = true
  /\ selectedIndex st' = 0%Z.
Proof.
  intros D st'.
  assert (match_word3_to_end (slice_to 8 (js "show Cus")) = Some (js "Cus"))
    as Hq by reflexivity.
  pose proof (filtered_candidates_are_matching_keys false D (js "show Cus") 8
                initial (js "Cus") Hq) as (_ & _ & _ & _ & Hshown & Hidx).
  split; [exact Hq|]. split; [reflexivity|]. split; [reflexivity|exact Hidx].
Defined.

(** C3. The input text is [before ++ word ++ selected ++ after], where
    [word] is the word in progress, the maximal run of word characters
    that ends at the start of the selection, of three characters or
    more, [selected] is the selection of the textarea the ref gives
    (empty for a plain cursor) and [after] is the text behind it.
    Accepting [candidate], a key of the dictionary [D], gives the text
    [before ++ wrapped ++ " " ++ after]: [word] and the selection are
    replaced by the candidate wrapped by its tags ([[candidate]] with
    "uniqueKey", otherwise [<candidate>] with "glossary", otherwise as
    it is) and one space, what is before the word and behind the
    selection stays, and the cursor is moved to just after that
    space. *)
Theorem accepting_replaces_word_in_progress
    (p : props) (D : dictionary) (st : state) (t : textarea)
    (candidate before word selected after : jsstring) :
  autoCompleteList p = Some D ->
  candidate ∈ map fst D ->
  inputValue st = before ++ word ++ selected ++ after ->
  selectionStart t = length (before ++ word) ->
  selectionEnd t = length (before ++ word ++ selected) ->
  is_trailing_word_run (before ++ word) word ->
  3 <= length word ->
  let tags := default [] (dict_get D candidate) in
  let wrapped :=
    if bool_decide (js "uniqueKey" ∈ tags) then js "[" ++ candidate ++ js "]"
    else if bool_decide (js "glossary" ∈ tags) then js "<" ++ candidate ++ js ">"
    else candidate in
  let r := insertSuggestionAtCaret p (Some t) st (Some candidate) in
  inputValue r.1 = before ++ wrapped ++ js " " ++ after
  /\ cursor_moved_to r.2
     = Some (length (before ++ wrapped ++ js " "),
             length (before ++ wrapped ++ js " "))
  /\ showSuggestions r.1 = false
  /\ selectedIndex r.1 = 0%Z.
Proof.
  intros HD Hkey Hvalue Hstart Hend Hrun Hlen tags wrapped r.
  pose proof (match_word3_to_end_of_run _ _ Hrun) as Hmatch.
  replace (3 <=? length word) with true in Hmatch
    by (symmetry; by apply Nat.leb_le).
  destruct (slices_of_split before word selected after)
    as (Hbefore & Hafter & Hkeep).
  unfold r. rewrite (insert_key_of_dictionary p D st t candidate HD Hkey).
  fold tags. fold wrapped. unfold replace_start.
  rewrite Hvalue, Hstart, Hend, Hbefore, Hafter, Hmatch, Hkeep.
  cbn [fst snd inputValue showSuggestions selectedIndex cursor_moved_to].
  split; [done|]. split; [|done].
  rewrite !length_app. simpl. do 2 f_equal; lia.
Qed.

(** The example of the claim, and the cursor in the middle of a text,
    where the text behind the cursor stays. *)
Lemma accepting_replaces_word_in_progress_witness :
  let D := [(js "customer_id", [js "uniqueKey"]); (js "revenue", [js "glossary"])] in
  let p := Props false (Some D) in
  let st := handleChange p (js "show cus") 8 initial in
  let r := insertSuggestionAtCaret p (Some (Textarea 8 8)) st
             (Some (js "customer_id")) in
  let st2 := handleChange p (js "sum rev by month") 7 initial in
  let r2 := insertSuggestionAtCaret p (Some (Textarea 7 10)) st2
              (Some (js "revenue")) in
  (inputValue r.1 = js "show [customer_id] "
   /\ cursor_moved_to r.2 = Some (19, 19))
  /\ (inputValue r2.1 = js "sum <revenue>  month"
      /\ cursor_moved_to r2.2 = Some (14, 14)).
Proof.
  intros D p st r st2 r2. split.
  - assert (is_trailing_word_run (js "show " ++ js "cus") (js "cus")) as Hrun.
    { exists (js "show "). split; [reflexivity|]. split; [reflexivity|].
      right. exists (js "show"), " "%char. split; reflexivity. }
    destruct (accepting_replaces_word_in_progress p D st (Textarea 8 8)
                (js "customer_id") (js "show ") (js "cus") [] []
                eq_refl ltac:(vm_compute; by left) eq_refl eq_refl eq_refl Hrun
                ltac:(vm_compute; lia))
      as (Hvalue & Hcursor & _).
    split; [exact Hvalue|exact Hcursor].
  - assert (is_trailing_word_run (js "sum " ++ js "rev") (js "rev")) as Hrun.
    { exists (js "sum "). split; [reflexivity|]. split; [reflexivity|].
      right. exists (js "sum"), " "%char. split; reflexivity. }
    destruct (accepting_replaces_word_in_progress p D st2 (Textarea 7 10)
                (js "revenue") (js "sum ") (js "rev") (js " by") (js " month")
                eq_refl ltac:(vm_compute; right; by left) eq_refl eq_refl eq_refl
                Hrun ltac:(vm_compute; lia))
      as (Hvalue & Hcursor & _).
    split; [exact Hvalue|exact Hcursor].
Defined.

(** C8. While the suggestion list is shown, Escape hides it and does
    nothing else: the input text, the filtered list and the highlighted
    index stay, the cursor is not moved, nothing is submitted. *)
Theorem escape_hides_suggestions_only
    (p : props) (ta : option textarea) (st : state) (e : key_event) :
  list_shown st = true ->
  key e = "Escape"%string ->
  let r := handleKeyPress p ta st e in
  r = (set_showSuggestions false st, [PreventDefault])
  /\ showSuggestions r.1 = false
  /\ list_shown r.1 = false
  /\ inputValue r.1 = inputValue st
  /\ filteredSuggestions r.1 = filteredSuggestions st
  /\ selectedIndex r.1 = selectedIndex st
  /\ cursor_moved_to r.2 = None
  /\ submitted r.2 = None.
Proof.
  intros Hshown Hkey r.
  assert (r = (set_showSuggestions false st, [PreventDefault])) as ->.
  { unfold r, handleKeyPress, suggestion_keys. by rewrite Hshown, Hkey. }
  repeat split.
Qed.

Lemma escape_hides_suggestions_only_witness :
  let p := Props false (Some [(js "customer_id", [js "uniqueKey"])]) in
  let st := handleChange p (js "show cus") 8 initial in
  let r := handleKeyPress p (Some (Textarea 8 8)) st (KeyEvent "Escape" false) in
  list_shown st = true
  /\ list_shown r.1 = false
  /\ inputValue r.1 = js "show cus"
  /\ cursor_moved_to r.2 = None.
Proof.
  intros p st r.
  destruct (escape_hides_suggestions_only p (Some (Textarea 8 8)) st
              (KeyEvent "Escape" false) eq_refl eq_refl)
    as (_ & _ & Hhidden & Hvalue & _ & _ & Hcursor & _).
  split; [reflexivity|]. split; [exact Hhidden|].
  split; [exact Hvalue|exact Hcursor].
Defined.

Lemma set_selectedIndex_same st : set_selectedIndex (selectedIndex st) st = st.
Proof. by destruct st. Qed.

(** C7. In every state the composer reaches, a filtered list that is
    not empty has the highlighted index among its indices, and so it is
    after each further event (a text change, a key, a click on a
    candidate, a hover, a click on send). While the list is shown,
    ArrowDown moves the index up by one but not past the last index,
    where it changes nothing, and ArrowUp moves it down by one but not
    below 0, where it changes nothing. *)
Theorem highlighted_index_stays_in_bounds (st : state) :
  reachable st ->
  (filteredSuggestions st <> [] -> index_in_bounds st)
  /\ (forall p ta ev st' effs,
        dispatch p ta st ev = Some (st', effs) ->
        filteredSuggestions st' <> [] -> index_in_bounds st')
  /\ (forall p ta e,
        list_shown st = true -> key e = "ArrowDown"%string ->
        let last := (Z.of_nat (length (filteredSuggestions st)) - 1)%Z in
        handleKeyPress p ta st e
        = (set_selectedIndex (Z.min (selectedIndex st + 1) last) st,
           [PreventDefault])
        /\ (selectedIndex st = last -> (handleKeyPress p ta st e).1 = st))
  /\ (forall p ta e,
        list_shown st = true -> key e = "ArrowUp"%string ->
        handleKeyPress p ta st e
        = (set_selectedIndex (Z.max (selectedIndex st - 1) 0) st,
           [PreventDefault])
        /\ (selectedIndex st = 0%Z -> (handleKeyPress p ta st e).1 = st)).
Proof.
  intros Hreach. pose proof (reachable_bounded st Hreach) as Hb.
  split; [exact Hb|]. split.
  { intros p ta ev st' effs Hstep.
    by apply (dispatch_bounded p ta st ev st' effs). }
  assert (list_shown st = true -> index_in_bounds st) as Hin.
  { intros Hshown. apply Hb. unfold list_shown in Hshown.
    apply andb_true_iff in Hshown as [_ Hlen]. apply Nat.ltb_lt in Hlen.
    intros Hnil. rewrite Hnil in Hlen. simpl in Hlen. lia. }
  split.
  - intros p ta e Hshown Hkey last. destruct (Hin Hshown) as [Hlo Hhi].
    assert (handleKeyPress p ta st e
            = (set_selectedIndex (Z.min (selectedIndex st + 1) last) st,
               [PreventDefault])) as ->.
    { unfold handleKeyPress, suggestion_keys. rewrite Hshown, Hkey. simpl.
      do 2 f_equal. fold last.
      destruct (Z.ltb_spec (selectedIndex st) last); lia. }
    split; [done|]. intros Hlast. simpl.
    replace (Z.min (selectedIndex st + 1) last) with (selectedIndex st) by lia.
    apply set_selectedIndex_same.
  - intros p ta e Hshown Hkey. destruct (Hin Hshown) as [Hlo Hhi].
    assert (handleKeyPress p ta st e
            = (set_selectedIndex (Z.max (selectedIndex st - 1) 0) st,
               [PreventDefault])) as ->.
    { unfold handleKeyPress, suggestion_keys. rewrite Hshown, Hkey. simpl.
      do 2 f_equal. destruct (Z.ltb_spec 0 (selectedIndex st)); lia. }
    split; [done|]. intros Hzero. simpl.
    replace (Z.max (selectedIndex st - 1) 0) with (selectedIndex st) by lia.
    apply set_selectedIndex_same.
Qed.

Lemma highlighted_index_stays_in_bounds_witness :
  let p := Props false (Some [(js "customer_id", [js "uniqueKey"]);
                              (js "customer_name", [])]) in
  let ta := Some (Textarea 8 8) in
  let st := handleChange p (js "show cus") 8 initial in
  let down := (handleKeyPress p ta st (KeyEvent "ArrowDown" false)).1 in
  reachable st
  /\ index_in_bounds st
  /\ selectedIndex down = 1%Z
  /\ (handleKeyPress p ta down (KeyEvent "ArrowDown" false)).1 = down
  /\ (handleKeyPress p ta st (KeyEvent "ArrowUp" false)).1 = st.
Proof.
  intros p ta st down.
  assert (reachable st) as Hst.
  { apply (reachable_step p ta initial (Change (js "show cus") 8) st []);
      [apply reachable_initial|reflexivity]. }
  assert (reachable down) as Hdown.
  { apply (reachable_step p ta st (KeyDown (KeyEvent "ArrowDown" false)) down
             [PreventDefault]); [exact Hst|reflexivity]. }
  destruct (highlighted_index_stays_in_bounds st Hst)
    as (Hbounds & _ & Hdown_st & Hup_st).
  destruct (highlighted_index_stays_in_bounds down Hdown)
    as (_ & _ & Hdown_down & _).
  split; [exact Hst|].
  split; [apply Hbounds; vm_compute; discriminate|].
  split; [reflexivity|]. split.
  - apply (Hdown_down p ta (KeyEvent "ArrowDown" false) eq_refl eq_refl).
    reflexivity.
  - apply (Hup_st p ta (KeyEvent "ArrowUp" false) eq_refl eq_refl).
    reflexivity.
Defined.

Lemma enter_key_spec (p : props) (st : state) (e : key_event) :
  enter_key p st e
  = if (String.eqb (key e) "Enter" && negb (shiftKey e))%bool
    then ((handleSubmit p st).1, PreventDefault :: (handleSubmit p st).2)
    else (st, []).
Proof.
  unfold enter_key. destruct (_ && _)%bool; [|done].
  by destruct (handleSubmit p st).
Qed.

Lemma handleSubmit_submitted (p : props) (st : state) :
  submitted (handleSubmit p st).2
  = if (disabled p || (length (inputValue st) =? 0))%bool then None
    else Some (inputValue st).
Proof. unfold handleSubmit. by destruct (_ || _)%bool. Qed.

Lemma insertSuggestionAtCaret_submits_nothing p ta st suggestion :
  submitted (insertSuggestionAtCaret p ta st suggestion).2 = None.
Proof.
  unfold insertSuggestionAtCaret. destruct ta as [t|]; [|done].
  destruct (autoCompleteList p); [|done].
  destruct (_ && _)%bool; [done|]. by destruct (wrap _ _).
Qed.

(** C1, as the code has it. While the suggestion list is shown,
    ArrowDown, ArrowUp, Tab and Escape are served by the suggestion
    branch, which prevents the default action, submits nothing and
    returns; every other key, and every key while the list is hidden,
    goes on to the Enter test. Enter without shift runs the submit
    handler whether the list is shown or not, and the message is
    submitted exactly when the composer is not disabled and the input
    is not empty. *)
Theorem keyboard_contract
    (p : props) (ta : option textarea) (st : state) (e : key_event) :
  (list_shown st = true -> is_suggestion_key (key e) = true ->
     exists st' effs,
       suggestion_keys p ta st e = Some (st', PreventDefault :: effs)
       /\ handleKeyPress p ta st e = (st', PreventDefault :: effs)
       /\ submitted (PreventDefault :: effs) = None)
  /\ ((list_shown st && is_suggestion_key (key e))%bool = false ->
        suggestion_keys p ta st e = None
        /\ handleKeyPress p ta st e = enter_key p st e)
  /\ (key e = "Enter"%string -> shiftKey e = false ->
        handleKeyPress p ta st e
        = ((handleSubmit p st).1, PreventDefault :: (handleSubmit p st).2)
        /\ submitted (handleKeyPress p ta st e).2
           = if (disabled p || (length (inputValue st) =? 0))%bool then None
             else Some (inputValue st))
  /\ ((String.eqb (key e) "Enter" && negb (shiftKey e))%bool = false ->
        enter_key p st e = (st, [])).
Proof.
  split; [|split; [|split]].
  - intros Hshown Hkey. unfold handleKeyPress, suggestion_keys.
    rewrite Hshown. unfold is_suggestion_key in Hkey.
    destruct (String.eqb (key e) "ArrowDown"); [by eexists _, []|].
    destruct (String.eqb (key e) "ArrowUp"); [by eexists _, []|].
    destruct (String.eqb (key e) "Tab").
    { pose proof (insertSuggestionAtCaret_submits_nothing p ta st
                    (array_get (filteredSuggestions st) (selectedIndex st)))
        as Hnone.
      destruct (insertSuggestionAtCaret p ta st _) as [st' effs].
      by exists st', effs. }
    destruct (String.eqb (key e) "Escape"); [by eexists _, []|done].
  - intros Hnot. unfold handleKeyPress, suggestion_keys.
    destruct (list_shown st); [|done]. simpl in Hnot.
    unfold is_suggestion_key in Hnot.
    destruct (String.eqb (key e) "ArrowDown"); [done|].
    destruct (String.eqb (key e) "ArrowUp"); [done|].
    destruct (String.eqb (key e) "Tab"); [done|].
    by destruct (String.eqb (key e) "Escape").
  - intros Hkey Hshift.
    assert (handleKeyPress p ta st e
            = ((handleSubmit p st).1, PreventDefault :: (handleSubmit p st).2))
      as ->.
    { unfold handleKeyPress, suggestion_keys. rewrite Hkey. simpl.
      rewrite enter_key_spec, Hkey, Hshift. by destruct (list_shown st). }
    split; [done|]. simpl. apply handleSubmit_submitted.
  - intros Hnot. by rewrite enter_key_spec, Hnot.
Qed.

Lemma keyboard_contract_witness :
  let p := Props false (Some [(js "customer_id", [js "uniqueKey"])]) in
  let ta := Some (Textarea 8 8) in
  let st := handleChange p (js "show cus") 8 initial in
  list_shown st = true
  /\ (exists st' effs,
        handleKeyPress p ta st (KeyEvent "Tab" false)
        = (st', PreventDefault :: effs))
  /\ handleKeyPress p ta st (KeyEvent "a" false) = (st, [])
  /\ submitted (handleKeyPress p ta st (KeyEvent "Enter" false)).2
     = Some (js "show cus").
Proof.
  intros p ta st.
  destruct (keyboard_contract p ta st (KeyEvent "Tab" false))
    as (Hconsumed & _ & _ & _).
  destruct (keyboard_contract p ta st (KeyEvent "a" false))
    as (_ & Hthrough & _ & Hother).
  destruct (keyboard_contract p ta st (KeyEvent "Enter" false))
    as (_ & _ & Henter & _).
  split; [reflexivity|]. split; [|split].
  - destruct (Hconsumed eq_refl eq_refl) as (st' & effs & _ & Hkey & _).
    by exists st', effs.
  - destruct (Hthrough eq_refl) as [_ ->]. exact (Hother eq_refl).
  - exact (proj2 (Henter eq_refl eq_refl)).
Defined.

(** C1, against the specification as written: with the suggestion list shown,
    Enter without shift submits the message; and with the list hidden
    it submits nothing when the input is empty. *)
Lemma enter_submits_while_suggestions_shown :
  let p := Props false (Some [(js "customer_id", [js "uniqueKey"])]) in
  let ta := Some (Textarea 8 8) in
  let st := handleChange p (js "show cus") 8 initial in
  list_shown st = true
  /\ handleKeyPress p ta st (KeyEvent "Enter" false)
     = (State [] [js "customer_id"] false 0%Z,
        [PreventDefault; OnSubmit (js "show cus")])
  /\ list_shown initial = false
  /\ handleKeyPress p ta initial (KeyEvent "Enter" false)
     = (initial, [PreventDefault]).
Proof. vm_compute. repeat split. Qed.

End ComposerClaims.

(** ** The renderer: chips of a finalized message *)

Module RendererClaims.
Import JS Renderer Spec RendererFacts.

(** C4, with the count of the example put right. For every text the
    loop ends, and its parts are those of the left-to-right scan for
    the first bracket form, which are determined by the text: plain runs
    and chips in the order of the text, an angle-bracket form as a
    glossary chip and a square-bracket form as a unique-key chip, whose
    sources put one after the other give the text back. The example
    renders as four segments. *)
Theorem parseMessageContent_scans_left_to_right :
  (forall text : jsstring,
     exists parts,
       parseMessageContent text = Some parts
       /\ scan text parts
       /\ (forall parts', scan text parts' -> parts' = parts)
       /\ concat (node_source <$> parts) = text)
  /\ parseMessageContent (js "refund for <customer> and [order_id]")
     = Some [Plain (js "refund for "); GlossaryChip (js "customer");
             Plain (js " and "); UniqueKeyChip (js "order_id")].
Proof.
  split; [|by vm_compute].
  intros text. destruct (parse_total_scan text) as (parts & Hparse & Hscan).
  exists parts. split; [done|]. split; [done|]. split.
  - intros parts' Hscan'. by apply (scan_functional text).
  - by apply scan_source.
Qed.

(** C4, against the specification as written: the example has four segments,
    not three. *)
Lemma example_renders_four_segments :
  length <$> parseMessageContent (js "refund for <customer> and [order_id]")
  = Some 4
  /\ length <$> parseMessageContent (js "refund for <customer> and [order_id]")
     <> Some 3.
Proof. split; [by vm_compute|]. vm_compute. discriminate. Qed.




End RendererClaims.

(** ** The message options: the one-time migration *)

Module MessageOptionsClaims.
Import MessageOptions MessageOptionsFacts.

(** C2. With the marker not set, the first read for a connection id
    sets [secure_data] to [false] in every stored options object,
    stores the map and then the marker, and returns what
    [connection_id in all ? all[connection_id] : DEFAULT_OPTIONS] gives
    on the migrated map: the migrated entry of the connection; without
    one, the member of [Object.prototype] when the id is the name of
    one, and the default options otherwise. A second read returns the
    same value and writes nothing; after any further reads and saves the
    forced overwrite has not run again and a read still leaves the
    storage as it is. *)
Theorem first_read_migrates_once
    (D : IMessageOptions) (cid : string) (s : localStorage) :
  truthy_item (message_options_migration_v1 s) = false ->
  let stored_map := parse_or_empty (message_options s) in
  let migrated := force_secure_data_off <$> stored_map in
  let first := readMessageOptionsFromLocalStorage D (Some cid) s in
  let s1 := first.1.2 in
  (forall k o, stored_map !! k = Some (Obj o) ->
               migrated !! k = Some (Obj (Options (Some false) (debug o))))
  /\ (forall k, stored_map !! k = Some Null -> migrated !! k = Some Null)
  /\ dom migrated = dom stored_map
  /\ s1 = LocalStorage (Some migrated) (Some "true"%string)
  /\ writes first.2 = [SetItem "message_options"; SetItem MIGRATION_KEY_V1]
  /\ migration_passes first.2 = 1
  /\ first.1.1 = match migrated !! cid with
                 | Some entry => entry
                 | None => if JS.inherited cid then Inherited cid else Obj D
                 end
  /\ readMessageOptionsFromLocalStorage D (Some cid) s1
     = (first.1.1, s1, [GetItem MIGRATION_KEY_V1; GetItem "message_options"])
  /\ (forall ops, migration_passes (run_operations D ops s1).2 = 0)
  /\ (forall ops cid',
        let s2 := (run_operations D ops s1).1.2 in
        let later := readMessageOptionsFromLocalStorage D cid' s2 in
        later.1.2 = s2 /\ writes later.2 = []).
Proof.
  intros Hm stored_map migrated first s1.
  assert (first = (default (Obj D) (js_get migrated cid),
                   LocalStorage (Some migrated) (Some "true"%string),
                   [GetItem MIGRATION_KEY_V1; GetItem "message_options";
                    SetItem "message_options"; SetItem MIGRATION_KEY_V1]
                   ++ match js_get migrated cid with
                      | Some _ => []
                      | None => [GetItem "message_options"]
                      end)) as Hfirst by (by apply read_unmarked).
  assert (s1 = LocalStorage (Some migrated) (Some "true"%string)) as Hs1
    by (unfold s1; by rewrite Hfirst).
  split; [|split; [|split; [|split; [|split; [|split; [|split; [|split; [|split]]]]]]]].
  - intros k o Hk. unfold migrated. by rewrite lookup_fmap, Hk.
  - intros k Hk. unfold migrated. by rewrite lookup_fmap, Hk.
  - unfold migrated. apply dom_fmap_L.
  - exact Hs1.
  - rewrite Hfirst. simpl. by destruct (js_get migrated cid).
  - rewrite Hfirst. simpl. by destruct (js_get migrated cid).
  - rewrite Hfirst. cbn [fst]. unfold js_get.
    destruct (migrated !! cid); [done|]. by destruct (JS.inherited cid).
  - rewrite Hs1, read_marked by done. by rewrite Hfirst.
  - intros ops. rewrite Hs1. by apply run_operations_marked.
  - intros ops cid' s2 later.
    assert (truthy_item (message_options_migration_v1 s2) = true) as Hm2.
    { unfold s2. rewrite Hs1. by apply run_operations_marked. }
    unfold later. destruct cid' as [cid'|]; [|done].
    by rewrite read_marked.
Qed.

(** The example of the specification, and a read under an id that names
    a member of [Object.prototype]. *)
Lemma first_read_migrates_once_witness :
  let D := Options (Some false) (Some false) in
  let s := LocalStorage
             (Some {[ "conn1"%string := Obj (Options (Some true) (Some false)) ]})
             None in
  let first := readMessageOptionsFromLocalStorage D (Some "conn1"%string) s in
  let other := readMessageOptionsFromLocalStorage D (Some "toString"%string) s in
  truthy_item (message_options_migration_v1 s) = false
  /\ first.1.1 = Obj (Options (Some false) (Some false))
  /\ first.1.2
     = LocalStorage
         (Some {[ "conn1"%string := Obj (Options (Some false) (Some false)) ]})
         (Some "true"%string)
  /\ readMessageOptionsFromLocalStorage D (Some "conn1"%string) first.1.2
     = (first.1.1, first.1.2,
        [GetItem MIGRATION_KEY_V1; GetItem "message_options"])
  /\ other.1.1 = Inherited "toString"
  /\ other.1.2 = first.1.2.
Proof.
  intros D s first other.
  destruct (first_read_migrates_once D "conn1"%string s eq_refl)
    as (_ & _ & _ & _ & _ & _ & _ & Hsecond & _).
  destruct (first_read_migrates_once D "toString"%string s eq_refl)
    as (_ & _ & _ & _ & _ & _ & Hother & _).
  split; [reflexivity|]. split; [by vm_compute|]. split; [by vm_compute|].
  split; [exact Hsecond|]. split; [exact Hother|]. by vm_compute.
Defined.

(** C9. Without a connection id the read returns the default options
    at once: the storage is as before and no call was made on it, the
    marker included; so it is for any number of such reads, and the
    forced overwrite still runs on the first read with a connection id
    if the marker is not set. *)
Theorem read_without_connection_touches_nothing
    (D : IMessageOptions) (s : localStorage) :
  readMessageOptionsFromLocalStorage D None s = (Obj D, s, [])
  /\ (forall n, run_operations D (replicate n (Read None)) s = (tt, s, []))
  /\ (forall n cid,
        let s' := (run_operations D (replicate n (Read None)) s).1.2 in
        migration_passes (readMessageOptionsFromLocalStorage D (Some cid) s').2
        = if truthy_item (message_options_migration_v1 s) then 0 else 1).
Proof.
  assert (forall n, run_operations D (replicate n (Read None)) s = (tt, s, []))
    as Hruns.
  { induction n as [|n IH]; [done|]. simpl. unfold bind at 1. simpl.
    by rewrite IH. }
  split; [done|]. split; [exact Hruns|].
  intros n cid s'. unfold s'. rewrite Hruns. cbn [fst snd].
  destruct (truthy_item (message_options_migration_v1 s)) eqn:Hm.
  - by rewrite read_marked.
  - rewrite read_unmarked by done. simpl. by destruct (js_get _ cid).
Qed.

End MessageOptionsClaims.

(** ** More on the message options: saving and patching *)

Module MessageOptionsExtras.
Import MessageOptions MessageOptionsFacts MessageOptionsHooks.

Lemma spread_assoc a b c : spread (spread a b) c = spread a (spread b c).
Proof.
  unfold spread. simpl.
  by destruct (secure_data c), (secure_data b), (debug c), (debug b).
Qed.

Lemma spread_stored_spread v b c :
  spread (spread_stored v b) c = spread_stored v (spread b c).
Proof. destruct v as [|o|name]; [done|apply spread_assoc|done]. Qed.

(** The storage [saveMessageOptionsToLocalStorage] leaves. *)
Lemma save_storage D cid changes s :
  (saveMessageOptionsToLocalStorage D cid changes s).1.2
  = LocalStorage
      (Some (js_set (parse_or_empty (message_options s)) cid
               (Obj (spread_stored
                       (default (Obj D)
                          (js_get (parse_or_empty (message_options s)) cid))
                       changes))))
      (message_options_migration_v1 s).
Proof.
  unfold saveMessageOptionsToLocalStorage, bind, getItem_message_options,
    setItem_message_options. simpl.
  by destruct (js_get (parse_or_empty (message_options s)) cid).
Qed.

(** The map and the marker a save leaves. *)
Lemma save_map D cid changes s :
  parse_or_empty
    (message_options (saveMessageOptionsToLocalStorage D cid changes s).1.2)
  = js_set (parse_or_empty (message_options s)) cid
      (Obj (spread_stored
              (default (Obj D)
                 (js_get (parse_or_empty (message_options s)) cid))
              changes)).
Proof. by rewrite save_storage. Qed.

Lemma save_marker D cid changes s :
  message_options_migration_v1
    (saveMessageOptionsToLocalStorage D cid changes s).1.2
  = message_options_migration_v1 s.
Proof. by rewrite save_storage. Qed.

Lemma read_result D cid s :
  (readMessageOptionsFromLocalStorage D (Some cid) s).1.1
  = default (Obj D)
      (js_get (if truthy_item (message_options_migration_v1 s)
               then parse_or_empty (message_options s)
               else force_secure_data_off <$> parse_or_empty (message_options s))
              cid).
Proof.
  destruct (truthy_item (message_options_migration_v1 s)) eqn:Hm.
  - by rewrite read_marked.
  - by rewrite read_unmarked.
Qed.

Lemma js_get_insert (m : gmap string stored) k v :
  js_get (<[k := v]> m) k = Some v.
Proof. apply js_get_own, lookup_insert_eq. Qed.

Lemma js_set_comm (m : gmap string stored) k1 k2 v1 v2 :
  k1 <> k2 ->
  js_set (js_set m k1 v1) k2 v2 = js_set (js_set m k2 v2) k1 v1.
Proof.
  intros Hne.
  destruct (js_set_cases m k1 v1) as [[E1 C1]|[E1 [-> N1]]];
    destruct (js_set_cases m k2 v2) as [[E2 C2]|[E2 [-> N2]]];
    [| | |done].
  - rewrite E1, E2, !js_set_insert.
    + by apply insert_insert_ne.
    + destruct C1 as [?|C1]; [by left|right]. by rewrite lookup_insert_ne.
    + destruct C2 as [?|C2]; [by left|right]. by rewrite lookup_insert_ne.
  - rewrite E2, E1. apply js_set_proto. by rewrite lookup_insert_ne.
  - rewrite E1, E2. symmetry. apply js_set_proto. by rewrite lookup_insert_ne.
Qed.

(** X1. Once the migration has run, a patch under a connection id that
    is neither empty nor ["__proto__"], followed by a read under it,
    returns the value read before with the flags of the patch put over
    it (a flag the patch does not give keeps its value; a member of
    [Object.prototype] read before gives no flag), and the read leaves
    the storage as the patch left it. *)
Theorem patch_then_read_returns_merged
    (D : IMessageOptions) (cid : string) (changes : IMessageOptions)
    (s : localStorage) :
  cid <> ""%string ->
  cid <> "__proto__"%string ->
  truthy_item (message_options_migration_v1 s) = true ->
  let before := (readMessageOptionsFromLocalStorage D (Some cid) s).1.1 in
  let s1 := (patch_mutationFn D (Some cid) changes s).1.2 in
  let after := readMessageOptionsFromLocalStorage D (Some cid) s1 in
  after.1.1 = Obj (spread_stored before changes)
  /\ after.1.2 = s1
  /\ (forall b, secure_data changes = Some b ->
                secure_data (spread_stored before changes) = Some b)
  /\ (forall b, debug changes = Some b ->
                debug (spread_stored before changes) = Some b)
  /\ (forall o, before = Obj o -> secure_data changes = None ->
                secure_data (spread_stored before changes) = secure_data o)
  /\ (forall o, before = Obj o -> debug changes = None ->
                debug (spread_stored before changes) = debug o).
Proof.
  intros Hcid Hproto Hm before s1 after.
  assert (s1 = (saveMessageOptionsToLocalStorage D cid changes s).1.2) as Hs1.
  { unfold s1, patch_mutationFn.
    destruct (String.eqb_spec cid ""); [done|done]. }
  assert (truthy_item (message_options_migration_v1 s1) = true) as Hm1
    by (by rewrite Hs1, save_storage).
  assert (before
          = default (Obj D) (js_get (parse_or_empty (message_options s)) cid))
    as Hbefore by (unfold before; by rewrite read_result, Hm).
  split; [|split; [|split; [|split; [|split]]]].
  - unfold after. rewrite read_result, Hm1, Hs1, save_map.
    rewrite js_set_insert by (by left). by rewrite js_get_insert, Hbefore.
  - unfold after. by rewrite read_marked.
  - intros b Hb. destruct before as [|o|name]; simpl; by rewrite Hb.
  - intros b Hb. destruct before as [|o|name]; simpl; by rewrite Hb.
  - intros o -> Hb. simpl. by rewrite Hb.
  - intros o -> Hb. simpl. by rewrite Hb.
Qed.

(** A patch of a stored entry, and a patch under the name of a member of
    [Object.prototype], where the entry gets the flags of the patch
    only. *)
Lemma patch_then_read_returns_merged_witness :
  let D := Options (Some false) (Some false) in
  let s := LocalStorage
             (Some {[ "conn1"%string := Obj (Options (Some false) (Some true)) ]})
             (Some "true"%string) in
  let s1 := (patch_mutationFn D (Some "conn1"%string)
               (Options (Some true) None) s).1.2 in
  let s2 := (patch_mutationFn D (Some "constructor"%string)
               (Options (Some true) None) s).1.2 in
  ("conn1"%string <> ""%string /\ "conn1"%string <> "__proto__"%string)
  /\ (readMessageOptionsFromLocalStorage D (Some "conn1"%string) s1).1.1
     = Obj (Options (Some true) (Some true))
  /\ (readMessageOptionsFromLocalStorage D (Some "constructor"%string) s2).1.1
     = Obj (Options (Some true) None).
Proof.
  intros D s s1 s2.
  assert ("conn1"%string <> ""%string) as Hcid by discriminate.
  assert ("conn1"%string <> "__proto__"%string) as Hproto by discriminate.
  destruct (patch_then_read_returns_merged D "conn1"%string
              (Options (Some true) None) s Hcid Hproto eq_refl) as (Hread & _).
  destruct (patch_then_read_returns_merged D "constructor"%string
              (Options (Some true) None) s ltac:(discriminate)
              ltac:(discriminate) eq_refl) as (Hread2 & _).
  split; [by split|]. split; [exact Hread|exact Hread2].
Defined.

(** X2. A patch changes what is read under no other connection id,
    whether the migration has run or not, and it never touches the
    marker; under an undefined or empty connection id it makes no call
    on localStorage at all. *)
Theorem patch_leaves_other_connections
    (D : IMessageOptions) (connection_id : option string) (cid' : string)
    (changes : IMessageOptions) (s : localStorage) :
  connection_id <> Some cid' ->
  let patched := patch_mutationFn D connection_id changes s in
  (readMessageOptionsFromLocalStorage D (Some cid') patched.1.2).1.1
  = (readMessageOptionsFromLocalStorage D (Some cid') s).1.1
  /\ message_options_migration_v1 patched.1.2 = message_options_migration_v1 s
  /\ (connection_id = None \/ connection_id = Some ""%string ->
      patched = (tt, s, [])).
Proof.
  intros Hother patched.
  assert (connection_id = None \/ connection_id = Some ""%string ->
          patched = (tt, s, [])) as Hfalsy.
  { intros [->| ->]; done. }
  destruct connection_id as [cid|]; [|by rewrite Hfalsy; [|left]].
  destruct (String.eqb_spec cid "") as [->|Hcid];
    [by rewrite Hfalsy; [|right]|].
  assert (patched.1.2 = (saveMessageOptionsToLocalStorage D cid changes s).1.2)
    as Hs1.
  { unfold patched, patch_mutationFn. by destruct (String.eqb_spec cid ""). }
  split; [|split; [|done]].
  - rewrite !read_result, Hs1, save_map, save_marker.
    assert (cid <> cid') as Hne by congruence.
    destruct (truthy_item (message_options_migration_v1 s)).
    + by rewrite js_get_js_set_ne.
    + by rewrite !js_get_force_secure_data_off, js_get_js_set_ne.
  - by rewrite Hs1, save_storage.
Qed.

Lemma patch_leaves_other_connections_witness :
  let D := Options (Some false) (Some false) in
  let s := LocalStorage
             (Some {[ "conn1"%string := Obj (Options (Some true) (Some true)) ]})
             None in
  let patched := patch_mutationFn D (Some "conn2"%string)
                   (Options (Some true) None) s in
  Some "conn2"%string <> Some "conn1"%string
  /\ (readMessageOptionsFromLocalStorage D (Some "conn1"%string) patched.1.2).1.1
     = Obj (Options (Some false) (Some true)).
Proof.
  intros D s patched.
  assert (Some "conn2"%string <> Some "conn1"%string) as Hne by discriminate.
  destruct (patch_leaves_other_connections D (Some "conn2"%string)
              "conn1"%string (Options (Some true) None) s Hne) as (Hread & _).
  split; [exact Hne|]. etrans; [exact Hread|]. by vm_compute.
Defined.

(** X3. Two saves under one connection id leave the storage that one
    save of the second changes put over the first leaves. *)
Theorem save_twice_is_save_of_merged
    (D : IMessageOptions) (cid : string) (changes1 changes2 : IMessageOptions)
    (s : localStorage) :
  (saveMessageOptionsToLocalStorage D cid changes2
     (saveMessageOptionsToLocalStorage D cid changes1 s).1.2).1.2
  = (saveMessageOptionsToLocalStorage D cid (spread changes1 changes2) s).1.2.
Proof.
  rewrite (save_storage D cid changes2), save_map, save_marker.
  rewrite (save_storage D cid (spread changes1 changes2)).
  f_equal. f_equal.
  set (m := parse_or_empty (message_options s)).
  set (base := default (Obj D) (js_get m cid)).
  destruct (js_set_cases m cid (Obj (spread_stored base changes1)))
    as [[E C]|[E [-> N]]].
  - rewrite E, js_get_insert.
    change (default (Obj D) (Some ?v)) with v. cbn [spread_stored].
    rewrite (js_set_insert (<[cid:=_]> m))
      by (right; by rewrite lookup_insert_eq).
    rewrite insert_insert_eq, (js_set_insert m) by done.
    by rewrite spread_stored_spread.
  - rewrite E, !js_set_proto by done. done.
Qed.

(** X4. Saves under two different connection ids give the same stored
    entries in either order (the stored texts may list the keys in a
    different order): every read afterwards returns the same, the
    entries under every key are the same, and so is the marker. *)
Theorem saves_to_different_connections_commute
    (D : IMessageOptions) (cid1 cid2 : string)
    (changes1 changes2 : IMessageOptions) (s : localStorage) :
  cid1 <> cid2 ->
  let s12 :=
    (saveMessageOptionsToLocalStorage D cid2 changes2
       (saveMessageOptionsToLocalStorage D cid1 changes1 s).1.2).1.2 in
  let s21 :=
    (saveMessageOptionsToLocalStorage D cid1 changes1
       (saveMessageOptionsToLocalStorage D cid2 changes2 s).1.2).1.2 in
  (forall connection_id,
     (readMessageOptionsFromLocalStorage D connection_id s12).1.1
     = (readMessageOptionsFromLocalStorage D connection_id s21).1.1)
  /\ (forall key : string,
        parse_or_empty (message_options s12) !! key
        = parse_or_empty (message_options s21) !! key)
  /\ message_options_migration_v1 s12 = message_options_migration_v1 s21.
Proof.
  intros Hne s12 s21.
  assert (s12 = s21) as ->; [|done].
  unfold s12, s21. rewrite !save_storage. simpl.
  rewrite !js_get_js_set_ne by done. f_equal. f_equal.
  by apply js_set_comm.
Qed.

Lemma saves_to_different_connections_commute_witness :
  let D := Options (Some false) (Some false) in
  let s := LocalStorage None (Some "true"%string) in
  let s12 :=
    (saveMessageOptionsToLocalStorage D "b" (Options None (Some true))
       (saveMessageOptionsToLocalStorage D "a" (Options (Some true) None) s).1.2).1.2 in
  let s21 :=
    (saveMessageOptionsToLocalStorage D "a" (Options (Some true) None)
       (saveMessageOptionsToLocalStorage D "b" (Options None (Some true)) s).1.2).1.2 in
  "a"%string <> "b"%string
  /\ (readMessageOptionsFromLocalStorage D (Some "a"%string) s12).1.1
     = Obj (Options (Some true) (Some false))
  /\ (readMessageOptionsFromLocalStorage D (Some "a"%string) s21).1.1
     = Obj (Options (Some true) (Some false)).
Proof.
  intros D s s12 s21.
  assert ("a"%string <> "b"%string) as Hne by discriminate.
  destruct (saves_to_different_connections_commute D "a" "b"
              (Options (Some true) None) (Options None (Some true)) s Hne)
    as (Hread & _).
  split; [exact Hne|]. split; [by vm_compute|].
  etrans; [symmetry; exact (Hread (Some "a"%string))|]. by vm_compute.
Defined.

(** X5. A save made before the migration has run, under a connection id
    other than ["__proto__"], does not keep its [secure_data]: the save
    stores an entry with the flags it gave, and the first read
    afterwards returns that entry with [secure_data] false, whatever the
    save gave, and with the stored [debug]. *)
Theorem migration_resets_secure_data_saved_before
    (D : IMessageOptions) (cid : string) (changes : IMessageOptions)
    (s : localStorage) :
  truthy_item (message_options_migration_v1 s) = false ->
  cid <> "__proto__"%string ->
  let s1 := (saveMessageOptionsToLocalStorage D cid changes s).1.2 in
  exists saved,
    parse_or_empty (message_options s1) !! cid = Some (Obj saved)
    /\ (forall b, secure_data changes = Some b -> secure_data saved = Some b)
    /\ (forall b, debug changes = Some b -> debug saved = Some b)
    /\ (readMessageOptionsFromLocalStorage D (Some cid) s1).1.1
       = Obj (Options (Some false) (debug saved)).
Proof.
  intros Hm Hproto s1.
  set (base := default (Obj D)
                 (js_get (parse_or_empty (message_options s)) cid)).
  exists (spread_stored base changes).
  assert (s1 = LocalStorage
                 (Some (<[cid := Obj (spread_stored base changes)]>
                          (parse_or_empty (message_options s))))
                 (message_options_migration_v1 s)) as Hs1.
  { unfold s1. rewrite save_storage. by rewrite js_set_insert by (by left). }
  split; [|split; [|split]].
  - rewrite Hs1. apply lookup_insert_eq.
  - intros b Hb. destruct base as [|o|name]; simpl; by rewrite Hb.
  - intros b Hb. destruct base as [|o|name]; simpl; by rewrite Hb.
  - rewrite read_result, Hs1.
    cbn [message_options message_options_migration_v1]. rewrite Hm.
    change (parse_or_empty (Some ?m)) with m.
    by rewrite js_get_force_secure_data_off, js_get_insert.
Qed.

Lemma migration_resets_secure_data_saved_before_witness :
  let D := Options (Some false) (Some false) in
  let s := LocalStorage None None in
  let s1 := (saveMessageOptionsToLocalStorage D "conn1"
               (Options (Some true) (Some true)) s).1.2 in
  (truthy_item (message_options_migration_v1 s) = false
   /\ "conn1"%string <> "__proto__"%string)
  /\ parse_or_empty (message_options s1) !! "conn1"%string
     = Some (Obj (Options (Some true) (Some true)))
  /\ (readMessageOptionsFromLocalStorage D (Some "conn1"%string) s1).1.1
     = Obj (Options (Some false) (Some true)).
Proof.
  intros D s s1.
  assert ("conn1"%string <> "__proto__"%string) as Hproto by discriminate.
  destruct (migration_resets_secure_data_saved_before D "conn1"
              (Options (Some true) (Some true)) s eq_refl Hproto)
    as (saved & Hsaved & _ & _ & Hread).
  split; [by split|]. split; [by vm_compute|].
  etrans; [exact Hread|]. by vm_compute.
Defined.



(** X6. Over any sequence of reads and saves, from any storage, the
    forced overwrite runs at most once, and a marker that is set stays
    set. *)
Theorem migration_runs_at_most_once_ever
    (D : IMessageOptions) (ops : list operation) (s : localStorage) :
  migration_passes (run_operations D ops s).2 <= 1
  /\ (truthy_item (message_options_migration_v1 s) = true ->
      truthy_item (message_options_migration_v1 (run_operations D ops s).1.2)
      = true
      /\ migration_passes (run_operations D ops s).2 = 0).
Proof.
  split; [apply run_operations_at_most_once|].
  intros Hm. by apply run_operations_marked.
Qed.

End MessageOptionsExtras.

(** ** The conversation hooks: paging and the optimistic delete *)

Module ConversationsExtras.
Import Conversations Paging.

Lemma total_fetched {A} (allPages : list (list A)) n :
  foldl (fun total page => total + length page) n allPages
  = n + length (concat allPages).
Proof.
  revert n. induction allPages as [|page allPages IH]; intros n; simpl.
  - lia.
  - rewrite IH, length_app. lia.
Qed.

Lemma getNextPageParam_spec {A} limit (lastPage : list A) allPages :
  getNextPageParam limit lastPage allPages
  = if length lastPage <? limit then None
    else Some (length (concat allPages)).
Proof. unfold getNextPageParam. by rewrite total_fetched. Qed.

Lemma take_length_take {A} (l : list A) n :
  take (length (take n l)) l = take n l.
Proof.
  rewrite length_take. destruct (Nat.min_spec n (length l)) as [[_ ->]|[Hle ->]].
  - done.
  - by rewrite !take_ge by lia.
Qed.

(** What the pages of the query are against the list of the backend. *)
Lemma fetched_shape {A} (fetch : nat -> list A) limit db allPages :
  (forall skip, fetch skip = take limit (drop skip db)) ->
  fetched fetch limit allPages ->
  exists before skip,
    allPages = before ++ [fetch skip] /\ concat before = take skip db.
Proof.
  intros Hfetch. induction 1 as [|allPages lastPage pageParam _ IH Hlast Hnext].
  - by exists [], 0.
  - destruct IH as (before & skip & -> & Hbefore).
    exists (before ++ [fetch skip]), pageParam. split; [done|].
    rewrite getNextPageParam_spec in Hnext.
    destruct (length lastPage <? limit); [done|]. injection Hnext as <-.
    rewrite concat_app. simpl. rewrite app_nil_r, Hbefore, Hfetch.
    rewrite take_take_drop. by rewrite take_length_take.
Qed.

(** X7. With a backend that answers a request for [limit] conversations
    after [skip] by that slice of its list [db], the pages of the
    infinite query put together are always a beginning of [db], so that
    no conversation is skipped or fetched twice; and when
    [getNextPageParam] gives [null] they are all of [db]. *)
Theorem paging_fetches_every_conversation_once
    {A : Type} (fetch : nat -> list A) (limit : nat) (db : list A)
    (allPages : list (list A)) :
  (forall skip, fetch skip = take limit (drop skip db)) ->
  fetched fetch limit allPages ->
  concat allPages = take (length (concat allPages)) db
  /\ (forall lastPage,
        last allPages = Some lastPage ->
        getNextPageParam limit lastPage allPages = None ->
        concat allPages = db).
Proof.
  intros Hfetch Hpages.
  destruct (fetched_shape fetch limit db allPages Hfetch Hpages)
    as (before & skip & -> & Hbefore).
  assert (concat (before ++ [fetch skip]) = take (skip + limit) db) as Hall.
  { rewrite concat_app. simpl.
    by rewrite app_nil_r, Hbefore, Hfetch, take_take_drop. }
  split.
  - by rewrite Hall, take_length_take.
  - intros lastPage Hlast Hnone. rewrite last_snoc in Hlast.
    injection Hlast as <-. rewrite getNextPageParam_spec in Hnone.
    destruct (Nat.ltb_spec (length (fetch skip)) limit) as [Hshort|]; [|done].
    rewrite Hfetch, length_take, length_drop in Hshort.
    rewrite Hall. apply take_ge. lia.
Qed.

Lemma paging_fetches_every_conversation_once_witness :
  let db := [1; 2; 3; 4; 5] in
  let fetch := fun skip => take 2 (drop skip db) in
  let allPages := [[1; 2]; [3; 4]; [5]] in
  fetched fetch 2 allPages
  /\ getNextPageParam 2 [5] allPages = None
  /\ concat allPages = db.
Proof.
  intros db fetch allPages.
  assert (fetched fetch 2 allPages) as Hpages.
  { apply (fetched_next fetch 2 [[1; 2]; [3; 4]] [3; 4] 4); [|done|done].
    apply (fetched_next fetch 2 [[1; 2]] [1; 2] 2); [|done|done].
    apply fetched_first. }
  destruct (paging_fetches_every_conversation_once fetch 2 db allPages
              (fun skip => eq_refl) Hpages) as [_ Hdone].
  split; [exact Hpages|]. split; [reflexivity|].
  exact (Hdone [5] eq_refl eq_refl).
Defined.

(** X8. [getNextPageParam] gives [null] exactly when the last page is
    shorter than the limit, and otherwise the number of conversations in
    all pages; with every page full that is the limit times the number
    of pages, and with a limit of 0 it never gives [null]. *)
Theorem next_page_param_is_number_fetched
    {A : Type} (limit : nat) (lastPage : list A) (allPages : list (list A)) :
  getNextPageParam limit lastPage allPages
  = (if length lastPage <? limit then None
     else Some (length (concat allPages)))
  /\ (Forall (fun page => length page = limit) allPages ->
      length lastPage = limit ->
      getNextPageParam limit lastPage allPages
      = Some (limit * length allPages))
  /\ (limit = 0 ->
      getNextPageParam limit lastPage allPages
      = Some (length (concat allPages))).
Proof.
  split; [apply getNextPageParam_spec|]. split.
  - intros Hfull Hlast. rewrite getNextPageParam_spec, Hlast, Nat.ltb_irrefl.
    f_equal. induction Hfull as [|page allPages' Hpage _ IH]; simpl.
    + lia.
    + rewrite length_app, IH, Hpage. lia.
  - intros ->. by rewrite getNextPageParam_spec.
Qed.

Lemma next_page_param_is_number_fetched_witness :
  Forall (fun page => length page = 2) [[1; 2]; [3; 4]]
  /\ getNextPageParam 2 [3; 4] [[1; 2]; [3; 4]] = Some (2 * 2).
Proof.
  assert (Forall (fun page => length page = 2) [[1; 2]; [3; 4]]) as Hfull
    by (repeat constructor).
  split; [exact Hfull|].
  exact (proj1 (proj2 (next_page_param_is_number_fetched 2 [3; 4]
                         [[1; 2]; [3; 4]])) Hfull eq_refl).
Defined.

Lemma other_id_spec {M} idToDelete (c : conversation M) :
  other_id idToDelete c = true <-> conv_id c <> idToDelete.
Proof.
  unfold other_id. by destruct (String.eqb_spec (conv_id c) idToDelete).
Qed.

Lemma filter_other_id_twice {M} id1 id2 (l : list (conversation M)) :
  List.filter (other_id id1) (List.filter (other_id id2) l)
  = List.filter (other_id id2) (List.filter (other_id id1) l).
Proof.
  induction l as [|c l IH]; [done|]. simpl.
  destruct (other_id id2 c) eqn:H2, (other_id id1 c) eqn:H1; simpl;
    rewrite ?H1, ?H2, IH; done.
Qed.

Lemma filter_other_id_idemp {M} idToDelete (l : list (conversation M)) :
  List.filter (other_id idToDelete) (List.filter (other_id idToDelete) l)
  = List.filter (other_id idToDelete) l.
Proof.
  induction l as [|c l IH]; [done|]. simpl.
  destruct (other_id idToDelete c) eqn:H; simpl; rewrite ?H, IH; done.
Qed.

(** X9. After the optimistic delete no page of the infinite query and no
    entry of the list holds a conversation with the deleted id, while
    every page is still there with the conversations it had under other
    ids; an absent infinite query stays absent and an absent list
    becomes the empty list. Deleting the same id again changes nothing,
    and two deletes give the same cache in either order. *)
Theorem optimistic_delete_removes_only_that_id
    {M : Type} (idToDelete : string) (c : cache M) :
  let c' := onMutate idToDelete c in
  (forall d', conversations_infinite c' = Some d' ->
     exists d,
       conversations_infinite c = Some d
       /\ pageParams d' = pageParams d
       /\ length (pages d') = length (pages d)
       /\ forall i page, pages d !! i = Some page ->
            exists page',
              pages d' !! i = Some page'
              /\ forall conv, conv ∈ page'
                              <-> conv ∈ page /\ conv_id conv <> idToDelete)
  /\ (conversations_infinite c = None -> conversations_infinite c' = None)
  /\ (exists l', conversations c' = Some l'
        /\ forall conv, conv ∈ l'
             <-> conv ∈ default [] (conversations c)
                 /\ conv_id conv <> idToDelete)
  /\ onMutate idToDelete c' = c'
  /\ (forall id2, onMutate id2 c' = onMutate idToDelete (onMutate id2 c)).
Proof.
  intros c'. destruct c as [inf lst]. unfold c', onMutate. simpl.
  assert (forall (l : list (conversation M)) conv,
            conv ∈ List.filter (other_id idToDelete) l
            <-> conv ∈ l /\ conv_id conv <> idToDelete)
    as Hfilter.
  { intros l conv. rewrite !list_elem_of_In, filter_In, other_id_spec. done. }
  split; [|split; [|split; [|split]]].
  - intros d' Hd'. destruct inf as [d|]; [|done]. injection Hd' as <-.
    exists d. simpl. split; [done|]. split; [done|].
    split; [by rewrite length_map|].
    intros i page Hpage. eexists. split; [|apply Hfilter].
    change (map ?f ?l) with (f <$> l). by rewrite list_lookup_fmap, Hpage.
  - by intros ->.
  - eexists. split; [done|]. intros conv.
    destruct lst as [l|]; simpl; [apply Hfilter|].
    split; [by intros ?%elem_of_nil|by intros [?%elem_of_nil _]].
  - f_equal.
    + destruct inf as [d|]; [|done]. simpl. do 2 f_equal.
      rewrite map_map. apply map_ext. intros page.
      apply filter_other_id_idemp.
    + f_equal. destruct lst as [l|]; [|done]. simpl.
      apply filter_other_id_idemp.
  - intros id2. f_equal.
    + destruct inf as [d|]; [|done]. simpl. do 2 f_equal.
      rewrite !map_map. apply map_ext. intros page.
      apply filter_other_id_twice.
    + f_equal. destruct lst as [l|]; [|done]. simpl.
      apply filter_other_id_twice.
Qed.

Lemma removed_shorter {M} idToDelete (page : list (conversation M)) conv :
  conv ∈ page -> conv_id conv = idToDelete ->
  length (List.filter (other_id idToDelete) page) < length page.
Proof.
  intros Hin Hid. induction page as [|c page IH]; [by apply elem_of_nil in Hin|].
  simpl. apply elem_of_cons in Hin as [<-|Hin].
  - assert (other_id idToDelete conv = false) as ->.
    { unfold other_id. rewrite Hid, String.eqb_refl. done. }
    pose proof (List.filter_length_le (other_id idToDelete) page). lia.
  - specialize (IH Hin). destruct (other_id idToDelete c); simpl; lia.
Qed.

(** X10. The optimistic delete against the paging: when the deleted
    conversation was in the last page, which held no more than the
    limit, [getNextPageParam] on the pages as the delete leaves them
    gives [null], so no further page is offered; and whenever it still
    gives a parameter, that is the number of conversations left in the
    pages. *)
Theorem delete_from_last_page_ends_paging
    {M : Type} (limit : nat) (idToDelete : string)
    (d : infinite_data (conversation M)) (lastPage : list (conversation M))
    (conv : conversation M) :
  last (pages d) = Some lastPage ->
  length lastPage <= limit ->
  conv ∈ lastPage -> conv_id conv = idToDelete ->
  exists d' lastPage',
    remove_from_pages idToDelete (Some d) = Some d'
    /\ last (pages d') = Some lastPage'
    /\ getNextPageParam limit lastPage' (pages d') = None.
Proof.
  intros Hlast Hlen Hin Hid.
  exists (InfiniteData (map (List.filter (other_id idToDelete)) (pages d))
                       (pageParams d)),
         (List.filter (other_id idToDelete) lastPage).
  split; [done|]. simpl. split.
  - apply last_Some in Hlast as [before ->].
    rewrite map_app. simpl. apply last_snoc.
  - rewrite getNextPageParam_spec.
    pose proof (removed_shorter idToDelete lastPage conv Hin Hid) as Hshort.
    destruct (Nat.ltb_spec
                (length (List.filter (other_id idToDelete) lastPage)) limit);
      [done|lia].
Qed.

Lemma delete_from_last_page_ends_paging_witness :
  let c := fun id : string => Conversation (M := nat) id "conn" "name" [] in
  let d := InfiniteData [[c "a"; c "b"]; [c "c"; c "d"]] [0; 2] in
  last (pages d) = Some [c "c"; c "d"]
  /\ getNextPageParam 2 [c "c"; c "d"] (pages d) = Some 4
  /\ exists d' lastPage',
       remove_from_pages "d" (Some d) = Some d'
       /\ last (pages d') = Some lastPage'
       /\ getNextPageParam 2 lastPage' (pages d') = None.
Proof.
  intros c d. split; [reflexivity|]. split; [reflexivity|].
  apply (delete_from_last_page_ends_paging 2 "d" d [c "c"; c "d"] (c "d")).
  - reflexivity.
  - simpl. lia.
  - apply elem_of_cons. right. apply elem_of_cons. by left.
  - reflexivity.
Defined.

End ConversationsExtras.

(** ** More on the composer *)

Module ComposerExtras.
Import JS Composer ComposerSession Spec StringFacts ComposerFacts.

Lemma shown_has_candidates_keep st st' :
  showSuggestions st' = false
  \/ (showSuggestions st' = showSuggestions st
      /\ filteredSuggestions st' = filteredSuggestions st) ->
  shown_has_candidates st -> shown_has_candidates st'.
Proof.
  unfold shown_has_candidates. intros [Hhidden|[Hs Hf]] Hinv Hshown.
  - congruence.
  - rewrite Hf. apply Hinv. congruence.
Qed.

Lemma handleSubmit_show p st :
  showSuggestions (handleSubmit p st).1 = false
  \/ (showSuggestions (handleSubmit p st).1 = showSuggestions st
      /\ filteredSuggestions (handleSubmit p st).1 = filteredSuggestions st).
Proof. unfold handleSubmit. destruct (_ || _)%bool; [by right|by left]. Qed.

Lemma insertSuggestionAtCaret_show p ta st suggestion :
  let st' := (insertSuggestionAtCaret p ta st suggestion).1 in
  showSuggestions st' = false
  \/ (showSuggestions st' = showSuggestions st
      /\ filteredSuggestions st' = filteredSuggestions st).
Proof.
  unfold insertSuggestionAtCaret. destruct ta as [t|]; [|by right].
  destruct (autoCompleteList p); [|by right].
  destruct (_ && _)%bool; [by right|].
  destruct (wrap _ _); by left.
Qed.

Lemma handleKeyPress_show p ta st e :
  let st' := (handleKeyPress p ta st e).1 in
  showSuggestions st' = false
  \/ (showSuggestions st' = showSuggestions st
      /\ filteredSuggestions st' = filteredSuggestions st).
Proof.
  unfold handleKeyPress, suggestion_keys.
  assert (let st' := (enter_key p st e).1 in
          showSuggestions st' = false
          \/ (showSuggestions st' = showSuggestions st
              /\ filteredSuggestions st' = filteredSuggestions st)) as Henter.
  { unfold enter_key. destruct (_ && _)%bool; [|by right].
    pose proof (handleSubmit_show p st) as H.
    by destruct (handleSubmit p st). }
  destruct (list_shown st); [|done].
  destruct (String.eqb (key e) "ArrowDown"); [by right|].
  destruct (String.eqb (key e) "ArrowUp"); [by right|].
  destruct (String.eqb (key e) "Tab").
  { pose proof (insertSuggestionAtCaret_show p ta st
                  (array_get (filteredSuggestions st) (selectedIndex st))) as H.
    by destruct (insertSuggestionAtCaret p ta st _). }
  destruct (String.eqb (key e) "Escape"); [by left|done].
Qed.

Lemma dispatch_shown_has_candidates p ta st ev st' effs :
  dispatch p ta st ev = Some (st', effs) ->
  shown_has_candidates st -> shown_has_candidates st'.
Proof.
  destruct ev as [value cursorPos|e|index|index|]; simpl.
  - intros [= <- <-] _. unfold shown_has_candidates, handleChange.
    destruct (match_word3_to_end _); simpl; [|done].
    intros Hlen Hnil. rewrite Hnil in Hlen. done.
  - intros [= H]. apply shown_has_candidates_keep.
    pose proof (handleKeyPress_show p ta st e) as Hshow. by rewrite H in Hshow.
  - destruct (list_shown st); [|done].
    destruct (filteredSuggestions st !! index) as [s|]; [|done].
    intros [= H]. apply shown_has_candidates_keep.
    pose proof (insertSuggestionAtCaret_show p ta st (Some s)) as Hshow.
    by rewrite H in Hshow.
  - destruct (list_shown st && _)%bool; [|done].
    intros [= <- <-]. apply shown_has_candidates_keep. by right.
  - intros [= H]. apply shown_has_candidates_keep.
    pose proof (handleSubmit_show p st) as Hshow. by rewrite H in Hshow.
Qed.

(** X11. In every state the composer reaches, the suggestions are
    flagged as shown only when the filtered list has candidates, so the
    list is rendered exactly when the flag is set. *)
Theorem shown_flag_means_candidates (st : state) :
  reachable st ->
  (showSuggestions st = true -> filteredSuggestions st <> [])
  /\ list_shown st = showSuggestions st.
Proof.
  intros Hreach.
  assert (shown_has_candidates st) as Hinv.
  { induction Hreach as [|p ta st ev st' effs _ IH Hstep]; [done|].
    by apply (dispatch_shown_has_candidates p ta st ev st' effs). }
  split; [exact Hinv|]. unfold list_shown.
  destruct (showSuggestions st) eqn:Hshow; [|done]. simpl.
  specialize (Hinv Hshow). by destruct (filteredSuggestions st).
Qed.

Lemma shown_flag_means_candidates_witness :
  let p := Props false (Some [(js "customer_id", [js "uniqueKey"])]) in
  let st := handleChange p (js "show cus") 8 initial in
  reachable st /\ list_shown st = showSuggestions st.
Proof.
  intros p st.
  assert (reachable st) as Hst.
  { apply (reachable_step p None initial (Change (js "show cus") 8) st []);
      [apply reachable_initial|reflexivity]. }
  split; [exact Hst|]. exact (proj2 (shown_flag_means_candidates st Hst)).
Defined.

Lemma handleKeyPress_keeps_list p ta st e :
  filteredSuggestions (handleKeyPress p ta st e).1 = filteredSuggestions st.
Proof.
  unfold handleKeyPress, suggestion_keys.
  assert (filteredSuggestions (enter_key p st e).1 = filteredSuggestions st)
    as Henter.
  { unfold enter_key. destruct (_ && _)%bool; [|done].
    pose proof (handleSubmit_keeps_list p st) as [H _].
    by destruct (handleSubmit p st). }
  destruct (list_shown st); [|done].
  destruct (String.eqb (key e) "ArrowDown"); [done|].
  destruct (String.eqb (key e) "ArrowUp"); [done|].
  destruct (String.eqb (key e) "Tab").
  { pose proof (insertSuggestionAtCaret_keeps_list p ta st
                  (array_get (filteredSuggestions st) (selectedIndex st)))
      as [H _].
    by destruct (insertSuggestionAtCaret p ta st _). }
  destruct (String.eqb (key e) "Escape"); [done|done].
Qed.

Lemma filter_sublist {A} (f : A -> bool) (l : list A) :
  sublist (List.filter f l) l.
Proof.
  induction l as [|x l IH]; simpl; [constructor|].
  destruct (f x); by constructor.
Qed.

(** X12. While the props of the composer stay the same, the filtered
    list of every state it reaches is a selection, in order, of the keys
    of the dictionary; so each candidate offered has its tags in the
    dictionary. *)
Theorem filtered_list_is_selection_of_keys (p : props) (st : state) :
  reachable_with p st ->
  sublist (filteredSuggestions st) (suggestions p)
  /\ (forall k D, k ∈ filteredSuggestions st -> autoCompleteList p = Some D ->
        is_Some (dict_get D k)).
Proof.
  intros Hreach.
  assert (sublist (filteredSuggestions st) (suggestions p)) as Hsub.
  { induction Hreach as [|ta st ev st' effs _ IH Hstep];
      [apply sublist_nil_l|].
    destruct ev as [value cursorPos|e|index|index|]; simpl in Hstep.
    - injection Hstep as <- <-. unfold handleChange.
      destruct (match_word3_to_end _); simpl; [apply filter_sublist|done].
    - injection Hstep as Hstep.
      pose proof (handleKeyPress_keeps_list p ta st e) as Hsame.
      rewrite Hstep in Hsame. simpl in Hsame. by rewrite Hsame.
    - destruct (list_shown st); [|done].
      destruct (filteredSuggestions st !! index) as [s|]; [|done].
      injection Hstep as Hstep.
      pose proof (insertSuggestionAtCaret_keeps_list p ta st (Some s))
        as [Hins _].
      rewrite Hstep in Hins. simpl in Hins. by rewrite Hins.
    - destruct (list_shown st && _)%bool; [|done]. by injection Hstep as <- <-.
    - injection Hstep as Hstep.
      pose proof (handleSubmit_keeps_list p st) as [Hsub _].
      rewrite Hstep in Hsub. simpl in Hsub. by rewrite Hsub. }
  split; [exact Hsub|]. intros k D Hk HD. apply dict_get_key.
  unfold suggestions in Hsub. rewrite HD in Hsub.
  by apply (elem_of_sublist _ _ _ Hk Hsub).
Qed.

Lemma filtered_list_is_selection_of_keys_witness :
  let p := Props false (Some [(js "customer_id", [js "uniqueKey"]);
                              (js "revenue", [js "glossary"])]) in
  let st := handleChange p (js "show cus") 8 initial in
  reachable_with p st
  /\ sublist (filteredSuggestions st) (suggestions p).
Proof.
  intros p st.
  assert (reachable_with p st) as Hst.
  { apply (reachable_with_step p None initial (Change (js "show cus") 8) st []);
      [apply reachable_with_initial|reflexivity]. }
  split; [exact Hst|]. exact (proj1 (filtered_list_is_selection_of_keys p st Hst)).
Defined.

(** X13. In every state the composer reaches with the list shown, Tab
    accepts the candidate under the highlighted index, which is a
    candidate of the list and never [undefined]. *)
Theorem tab_accepts_a_listed_candidate
    (p : props) (ta : option textarea) (st : state) (e : key_event) :
  reachable st -> list_shown st = true -> key e = "Tab"%string ->
  exists s,
    s ∈ filteredSuggestions st
    /\ array_get (filteredSuggestions st) (selectedIndex st) = Some s
    /\ handleKeyPress p ta st e
       = ((insertSuggestionAtCaret p ta st (Some s)).1,
          PreventDefault :: (insertSuggestionAtCaret p ta st (Some s)).2).
Proof.
  intros Hreach Hshown Hkey.
  destruct (tab_accepts_highlighted p ta st e Hreach Hshown Hkey)
    as (s & Hs & Hpress).
  exists s. split; [by apply list_elem_of_lookup_2 in Hs|]. split; [|done].
  unfold array_get.
  assert (index_in_bounds st) as [Hlo _].
  { apply (reachable_bounded st Hreach). intros Hnil.
    rewrite Hnil in Hs. by rewrite lookup_nil in Hs. }
  by replace (selectedIndex st <? 0)%Z with false
    by (symmetry; apply Z.ltb_ge; lia).
Qed.

Lemma tab_accepts_a_listed_candidate_witness :
  let p := Props false (Some [(js "customer_id", [js "uniqueKey"])]) in
  let ta := Some (Textarea 8 8) in
  let st := handleChange p (js "show cus") 8 initial in
  reachable st
  /\ exists s,
       s ∈ filteredSuggestions st
       /\ handleKeyPress p ta st (KeyEvent "Tab" false)
          = ((insertSuggestionAtCaret p ta st (Some s)).1,
             PreventDefault :: (insertSuggestionAtCaret p ta st (Some s)).2).
Proof.
  intros p ta st.
  assert (reachable st) as Hst.
  { apply (reachable_step p ta initial (Change (js "show cus") 8) st []);
      [apply reachable_initial|reflexivity]. }
  split; [exact Hst|].
  destruct (tab_accepts_a_listed_candidate p ta st (KeyEvent "Tab" false)
              Hst eq_refl eq_refl) as (s & Hin & _ & Hpress).
  by exists s.
Defined.

Lemma submissions_app effs effs' :
  submissions (effs ++ effs') = submissions effs ++ submissions effs'.
Proof.
  induction effs as [|eff effs IH]; [done|]. destruct eff; simpl; by rewrite IH.
Qed.

(** The guard of [handleSubmit]. *)
Lemma handleSubmit_cases p st :
  ((disabled p || (length (inputValue st) =? 0))%bool = true
   /\ handleSubmit p st = (st, []))
  \/ ((disabled p || (length (inputValue st) =? 0))%bool = false
      /\ handleSubmit p st
         = (set_showSuggestions false (set_inputValue [] st),
            [OnSubmit (inputValue st)])).
Proof. unfold handleSubmit. destruct (_ || _)%bool; [by left|by right]. Qed.

Lemma submit_event_dispatch p ta st ev :
  is_submit_event ev = true ->
  exists effs,
    dispatch p ta st ev = Some ((handleSubmit p st).1, effs)
    /\ submissions effs = submissions (handleSubmit p st).2.
Proof.
  destruct ev as [value cursorPos|e|index|index|]; simpl; try done.
  - intros He. unfold handleKeyPress, suggestion_keys, enter_key. rewrite He.
    apply andb_true_iff in He as [Hkey _]. apply String.eqb_eq in Hkey.
    rewrite Hkey. simpl.
    destruct (handleSubmit p st) as [st' effs].
    exists (PreventDefault :: effs). by destruct (list_shown st).
  - intros _. exists (handleSubmit p st).2. by destruct (handleSubmit p st).
Qed.

Lemma run_submits_nothing_when_guarded p ta st evs :
  Forall (fun ev => is_submit_event ev = true) evs ->
  (disabled p || (length (inputValue st) =? 0))%bool = true ->
  submissions (run p ta st evs).2 = [].
Proof.
  intros Hevs Hguard. induction Hevs as [|ev evs Hev _ IH]; [done|]. simpl.
  destruct (submit_event_dispatch p ta st ev Hev) as (effs & -> & Hsub).
  destruct (handleSubmit_cases p st) as [[_ Hs]|[Hfalse _]]; [|congruence].
  rewrite Hs in Hsub |- *. simpl in *.
  destruct (run p ta st evs) as [st'' effs'']. simpl in *.
  by rewrite submissions_app, Hsub, IH.
Qed.

(** X14. However often the message is submitted in a row, by Enter
    without shift or by the send button, [onSubmit] is called at most
    once: the first submit passes the text on when the composer is not
    disabled and the text is not empty, and it empties the input, so the
    later ones find nothing to send. *)
Theorem repeated_submit_sends_once
    (p : props) (ta : option textarea) (st : state) (evs : list event) :
  Forall (fun ev => is_submit_event ev = true) evs ->
  submissions (run p ta st evs).2
  = (if (disabled p || (length (inputValue st) =? 0))%bool then []
     else match evs with
          | [] => []
          | _ :: _ => [inputValue st]
          end).
Proof.
  intros Hevs.
  destruct (disabled p || (length (inputValue st) =? 0))%bool eqn:Hguard;
    [by apply run_submits_nothing_when_guarded|].
  destruct Hevs as [|ev evs Hev Hevs]; [done|]. simpl.
  destruct (submit_event_dispatch p ta st ev Hev) as (effs & -> & Hsub).
  destruct (handleSubmit_cases p st) as [[Htrue _]|[_ Hs]]; [congruence|].
  rewrite Hs in Hsub |- *. simpl in *.
  pose proof (run_submits_nothing_when_guarded p ta
                (set_showSuggestions false (set_inputValue [] st)) evs Hevs)
    as Hrest.
  destruct (run p ta _ evs) as [st'' effs'']. simpl in *.
  rewrite submissions_app, Hsub, Hrest; [done|].
  simpl. apply orb_true_r.
Qed.

Lemma repeated_submit_sends_once_witness :
  let p := Props false None in
  let st := handleChange p (js "hello") 5 initial in
  let evs := [KeyDown (KeyEvent "Enter" false); ClickSend;
              KeyDown (KeyEvent "Enter" false)] in
  Forall (fun ev => is_submit_event ev = true) evs
  /\ submissions (run p None st evs).2 = [js "hello"].
Proof.
  intros p st evs.
  assert (Forall (fun ev => is_submit_event ev = true) evs) as Hevs
    by (repeat constructor).
  split; [exact Hevs|].
  exact (repeated_submit_sends_once p None st evs Hevs).
Defined.

(** X15. The input text is [before ++ selected ++ after] with the
    selection of the textarea on [selected], and fewer than three word
    characters end [before]. Accepting [candidate], a key of the
    dictionary, puts it in at the cursor: the text becomes
    [before ++ wrapped ++ " " ++ after], with [before] whole, the
    selection replaced by the wrapped candidate and one space, and the
    cursor goes to just after that space. *)
Theorem accepting_without_word_inserts_at_cursor
    (p : props) (D : dictionary) (st : state) (t : textarea)
    (candidate before selected after : jsstring) :
  autoCompleteList p = Some D ->
  candidate ∈ map fst D ->
  inputValue st = before ++ selected ++ after ->
  selectionStart t = length before ->
  selectionEnd t = length (before ++ selected) ->
  length (trailing_word_run before) < 3 ->
  let tags := default [] (dict_get D candidate) in
  let wrapped :=
    if bool_decide (js "uniqueKey" ∈ tags) then js "[" ++ candidate ++ js "]"
    else if bool_decide (js "glossary" ∈ tags) then js "<" ++ candidate ++ js ">"
    else candidate in
  let r := insertSuggestionAtCaret p (Some t) st (Some candidate) in
  inputValue r.1 = before ++ wrapped ++ js " " ++ after
  /\ cursor_moved_to r.2
     = Some (length (before ++ wrapped ++ js " "),
             length (before ++ wrapped ++ js " "))
  /\ showSuggestions r.1 = false
  /\ selectedIndex r.1 = 0%Z.
Proof.
  intros HD Hkey Hvalue Hstart Hend Hshort tags wrapped r.
  assert (match_word3_to_end before = None) as Hnone.
  { rewrite match_word3_to_end_trailing.
    destruct (Nat.leb_spec 3 (length (trailing_word_run before))); [lia|done]. }
  assert (slice_to (length before) (before ++ selected ++ after) = before)
    as Hbefore by apply take_app_length.
  assert (substring_from (length (before ++ selected))
            (before ++ selected ++ after) = after) as Hafter.
  { unfold substring_from. rewrite app_assoc. apply drop_app_length. }
  unfold r. rewrite (insert_key_of_dictionary p D st t candidate HD Hkey).
  fold tags. fold wrapped. unfold replace_start.
  rewrite Hvalue, Hstart, Hend, Hbefore, Hafter, Hnone, Hbefore.
  cbn [fst snd inputValue showSuggestions selectedIndex cursor_moved_to].
  split; [done|]. split; [|done].
  rewrite !length_app. simpl. do 2 f_equal; lia.
Qed.

Lemma accepting_without_word_inserts_at_cursor_witness :
  let D := [(js "revenue", [js "glossary"])] in
  let p := Props false (Some D) in
  let st := set_inputValue (js "is it up") initial in
  let r := insertSuggestionAtCaret p (Some (Textarea 3 5)) st
             (Some (js "revenue")) in
  length (trailing_word_run (js "is ")) < 3
  /\ inputValue r.1 = js "is <revenue>  up"
  /\ cursor_moved_to r.2 = Some (13, 13).
Proof.
  intros D p st r.
  assert (length (trailing_word_run (js "is ")) < 3) as Hshort
    by (vm_compute; lia).
  destruct (accepting_without_word_inserts_at_cursor p D st (Textarea 3 5)
              (js "revenue") (js "is ") (js "it") (js " up")
              eq_refl ltac:(vm_compute; by left) eq_refl eq_refl eq_refl Hshort)
    as (Hvalue & Hcursor & _).
  split; [exact Hshort|]. split; [exact Hvalue|exact Hcursor].
Defined.

Lemma dict_get_not_key (d : dictionary) k :
  k ∉ map fst d -> dict_get d k = None.
Proof.
  induction d as [|[k' tags] d IH]; simpl; [done|].
  intros Hfresh. apply not_elem_of_cons in Hfresh as [Hne Hfresh].
  case_bool_decide as Hk; [by subst|]. by apply IH.
Qed.

(** X27. Accepting a name that is not a key of the dictionary but names
    a member of [Object.prototype], such as "constructor", changes
    nothing: the tags read are the inherited member, the test of the
    tags throws, and the input text, the list, the flag and the index
    stay as they are, the cursor is not moved and nothing is
    submitted. *)
Theorem accepting_inherited_name_changes_nothing
    (p : props) (D : dictionary) (st : state) (t : textarea)
    (candidate : jsstring) :
  autoCompleteList p = Some D ->
  candidate ∉ map fst D ->
  candidate ∈ map js Object_prototype_names ->
  let r := insertSuggestionAtCaret p (Some t) st (Some candidate) in
  r.1 = st
  /\ TypeError ∈ r.2
  /\ cursor_moved_to r.2 = None
  /\ submitted r.2 = None.
Proof.
  intros HD Hfresh Hname r.
  assert (inherited (string_of_list_ascii candidate) = true) as Hin.
  { apply list_elem_of_fmap in Hname as (name & -> & Hname). unfold js.
    rewrite string_of_list_ascii_of_string. by apply bool_decide_eq_true. }
  unfold r, insertSuggestionAtCaret. rewrite HD. simpl to_text.
  rewrite (dict_get_not_key D candidate Hfresh), Hin. simpl.
  split; [done|]. split; [by left|done].
Qed.

Lemma accepting_inherited_name_changes_nothing_witness :
  let D := [(js "customer_id", [js "uniqueKey"])] in
  let p := Props false (Some D) in
  let st := handleChange p (js "show con") 8 initial in
  let r := insertSuggestionAtCaret p (Some (Textarea 8 8)) st
             (Some (js "constructor")) in
  ((js "constructor" ∉ map fst D)
   /\ js "constructor" ∈ map js Object_prototype_names)
  /\ inputValue r.1 = js "show con"
  /\ cursor_moved_to r.2 = None.
Proof.
  intros D p st r.
  assert (js "constructor" ∉ map fst D) as Hfresh.
  { intros Hin. apply list_elem_of_singleton in Hin. discriminate Hin. }
  assert (js "constructor" ∈ map js Object_prototype_names) as Hname
    by (by left).
  destruct (accepting_inherited_name_changes_nothing p D st (Textarea 8 8)
              (js "constructor") eq_refl Hfresh Hname)
    as (Hstate & _ & Hcursor & _).
  split; [by split|]. split; [|exact Hcursor].
  etrans; [exact (f_equal inputValue Hstate)|]. reflexivity.
Defined.

End ComposerExtras.

(** ** More on the renderer, and the composer against it *)

Module RendererExtras.
Import JS Renderer Spec RendererFacts.

Lemma no_form_in_plain_prefix (before tail : jsstring) :
  (forall c, c ∈ before -> c <> "<"%char /\ c <> "["%char) ->
  forall i, i < length before -> ~ bracket_form_at (drop i (before ++ tail)).
Proof.
  intros Hplain i Hi (op & cl & g & rest & Hk & Hs & _).
  destruct (lookup_lt_is_Some_2 before i Hi) as [c Hc].
  assert ((before ++ tail) !! i = Some op) as Hop.
  { rewrite <- (Nat.add_0_r i), <- lookup_drop, Hs. done. }
  rewrite lookup_app_l, Hc in Hop by done. injection Hop as ->.
  destruct (Hplain op (list_elem_of_lookup_2 _ _ _ Hc)) as [Hangle Hsquare].
  unfold bracket_kinds in Hk. apply elem_of_cons in Hk as [[= -> _]|Hk]; [done|].
  apply list_elem_of_singleton in Hk as [= -> _]. done.
Qed.

Lemma parse_of_scan text parts :
  scan text parts -> parseMessageContent text = Some parts.
Proof.
  intros Hscan. destruct (parse_total_scan text) as (parts' & -> & Hscan').
  f_equal. by apply (scan_functional text).
Qed.

(** The scan of a form that stands after a text without opening
    brackets, from the scan of what follows it. *)
Lemma scan_form_after_plain (before g rest : jsstring) (parts : list node) :
  (forall c, c ∈ before -> c <> "<"%char /\ c <> "["%char) ->
  g <> [] ->
  scan rest parts ->
  (">"%char ∉ g ->
   scan (before ++ js "<" ++ g ++ js ">" ++ rest)
        (plain_run before ++ GlossaryChip g :: parts))
  /\ ("]"%char ∉ g ->
      scan (before ++ js "[" ++ g ++ js "]" ++ rest)
           (plain_run before ++ UniqueKeyChip g :: parts)).
Proof.
  intros Hplain Hg Hscan. split; intros Hcl.
  - apply scan_glossary; [|done|done|done].
    by apply no_form_in_plain_prefix.
  - apply scan_unique_key; [|done|done|done].
    by apply no_form_in_plain_prefix.
Qed.

(** X16. A bracket form after a text without opening brackets is
    rendered on its own: the text as one plain run (none when it is
    empty), the content of the form as the chip of its kind, and then
    the parts of what follows the form, rendered as if it stood
    alone. *)
Theorem form_after_plain_text_renders_alone (before g rest : jsstring) :
  (forall c, c ∈ before -> c <> "<"%char /\ c <> "["%char) ->
  g <> [] ->
  (">"%char ∉ g ->
   parseMessageContent (before ++ js "<" ++ g ++ js ">" ++ rest)
   = (fun parts => plain_run before ++ GlossaryChip g :: parts)
       <$> parseMessageContent rest)
  /\ ("]"%char ∉ g ->
      parseMessageContent (before ++ js "[" ++ g ++ js "]" ++ rest)
      = (fun parts => plain_run before ++ UniqueKeyChip g :: parts)
          <$> parseMessageContent rest).
Proof.
  intros Hplain Hg.
  destruct (parse_total_scan rest) as (parts & Hparse & Hscan).
  destruct (scan_form_after_plain before g rest parts Hplain Hg Hscan)
    as [Hglossary Hunique].
  rewrite Hparse. simpl. split; intros Hcl; apply parse_of_scan; auto.
Qed.

Lemma form_after_plain_text_renders_alone_witness :
  (forall c, c ∈ js "total " -> c <> "<"%char /\ c <> "["%char)
  /\ parseMessageContent (js "total " ++ js "<" ++ js "revenue" ++ js ">"
                          ++ js " by [region]")
     = (fun parts => plain_run (js "total ") ++ GlossaryChip (js "revenue") :: parts)
         <$> parseMessageContent (js " by [region]").
Proof.
  assert (forall c, c ∈ js "total " -> c <> "<"%char /\ c <> "["%char) as Hplain.
  { intros c Hc. repeat (apply elem_of_cons in Hc as [->|Hc]; [done|]).
    by apply elem_of_nil in Hc. }
  split; [exact Hplain|].
  apply (form_after_plain_text_renders_alone (js "total ") (js "revenue")
           (js " by [region]") Hplain); [done|].
  intros Hin. repeat (apply elem_of_cons in Hin as [Hin|Hin]; [done|]).
  by apply elem_of_nil in Hin.
Defined.

(** X17. The composer against the renderer: a candidate that is not
    empty and holds no closing bracket, wrapped by the composer for its
    tags and put with one space between a text without opening brackets
    and any text, is rendered as the chip of its tag with exactly the
    candidate as content (a unique-key chip with "uniqueKey", else a
    glossary chip with "glossary"), after the text before it as one
    plain run and followed by the parts of the space and the text after
    it. *)
Theorem accepted_candidate_renders_as_its_chip
    (tags : option (list jsstring)) (candidate before after : jsstring) :
  candidate <> [] ->
  ">"%char ∉ candidate -> "]"%char ∉ candidate ->
  (forall c, c ∈ before -> c <> "<"%char /\ c <> "["%char) ->
  (Composer.tags_include tags (js "uniqueKey") = true ->
   Composer.wrap tags (Some candidate) = Some (js "[" ++ candidate ++ js "]")
   /\ parseMessageContent
        (before ++ (js "[" ++ candidate ++ js "]") ++ js " " ++ after)
      = (fun parts => plain_run before ++ UniqueKeyChip candidate :: parts)
          <$> parseMessageContent (js " " ++ after))
  /\ (Composer.tags_include tags (js "uniqueKey") = false ->
      Composer.tags_include tags (js "glossary") = true ->
      Composer.wrap tags (Some candidate) = Some (js "<" ++ candidate ++ js ">")
      /\ parseMessageContent
           (before ++ (js "<" ++ candidate ++ js ">") ++ js " " ++ after)
         = (fun parts => plain_run before ++ GlossaryChip candidate :: parts)
             <$> parseMessageContent (js " " ++ after)).
Proof.
  intros Hne Hangle Hsquare Hplain.
  destruct (parse_total_scan (js " " ++ after)) as (parts & Hparse & Hscan).
  destruct (scan_form_after_plain before candidate (js " " ++ after) parts
              Hplain Hne Hscan) as [Hglossary Hunique].
  unfold Composer.wrap. simpl Composer.to_text. rewrite Hparse. split.
  - intros ->. split; [done|]. rewrite <- !app_assoc.
    apply parse_of_scan, (Hunique Hsquare).
  - intros -> ->. split; [done|]. rewrite <- !app_assoc.
    apply parse_of_scan, (Hglossary Hangle).
Qed.

Lemma accepted_candidate_renders_as_its_chip_witness :
  (forall c, c ∈ js "show " -> c <> "<"%char /\ c <> "["%char)
  /\ Composer.wrap (Some [js "uniqueKey"]) (Some (js "customer_id"))
     = Some (js "[customer_id]")
  /\ parseMessageContent (js "show [customer_id] now")
     = Some [Plain (js "show "); UniqueKeyChip (js "customer_id");
             Plain (js " now")].
Proof.
  assert (forall c, c ∈ js "show " -> c <> "<"%char /\ c <> "["%char) as Hplain.
  { intros c Hc. repeat (apply elem_of_cons in Hc as [->|Hc]; [done|]).
    by apply elem_of_nil in Hc. }
  split; [exact Hplain|].
  destruct (accepted_candidate_renders_as_its_chip (Some [js "uniqueKey"])
              (js "customer_id") (js "show ") (js "now"))
    as [Hunique _]; [done| | |exact Hplain|].
  - intros Hin. repeat (apply elem_of_cons in Hin as [Hin|Hin]; [done|]).
    by apply elem_of_nil in Hin.
  - intros Hin. repeat (apply elem_of_cons in Hin as [Hin|Hin]; [done|]).
    by apply elem_of_nil in Hin.
  - destruct (Hunique eq_refl) as [Hwrap Hparse].
    split; [exact Hwrap|]. etrans; [exact Hparse|]. by vm_compute.
Defined.

End RendererExtras.

(** ** The related connection and the options shown for it *)

Module RelatedConnectionExtras.
Import Conversations MessageOptions MessageOptionsHooks.

(** X18. The connection [useGetRelatedConnection] gives is one of the
    loaded connections, and its id is the connection id of a loaded
    conversation that has the id of the route. When the conversations
    are not loaded, or none has that id, there is no related connection,
    and the options query then returns the default options without a
    call on localStorage. *)
Theorem related_connection_of_route
    {M C : Type} (conn_id : C -> string) (conversationId : string)
    (connectionsData : option (option (list C)))
    (conversationsData : option (list (conversation M)))
    (D : IMessageOptions) (s : localStorage) :
  let related :=
    useGetRelatedConnection conn_id conversationId connectionsData
                            conversationsData in
  (forall c, related = Some c ->
     exists connections convs conv,
       connectionsData = Some (Some connections) /\ c ∈ connections
       /\ conversationsData = Some convs /\ conv ∈ convs
       /\ conv_id conv = conversationId
       /\ conn_id c = conv_connection_id conv)
  /\ ((forall conv, conv ∈ default [] conversationsData ->
         conv_id conv <> conversationId) ->
      related = None
      /\ getMessageOptions_queryFn D (conn_id <$> related) s = (Obj D, s, [])).
Proof.
  intros related. unfold related, useGetRelatedConnection. split.
  - intros c Hc.
    destruct connectionsData as [[connections|]|]; [|done|done].
    apply find_some in Hc as [Hin Hmatch].
    destruct conversationsData as [convs|]; [|done].
    destruct (List.find _ convs) as [conv|] eqn:Hconv; [|done].
    apply find_some in Hconv as [Hcin Hcid].
    exists connections, convs, conv.
    rewrite !list_elem_of_In. apply String.eqb_eq in Hmatch, Hcid. done.
  - intros Hnone.
    assert (match conversationsData with
            | Some l =>
                List.find (fun conv => String.eqb (conv_id conv) conversationId) l
            | None => None
            end = None) as ->.
    { destruct conversationsData as [convs|]; [|done]. simpl in Hnone.
      destruct (List.find _ convs) as [conv|] eqn:Hconv; [|done].
      apply find_some in Hconv as [Hcin Hcid]. apply String.eqb_eq in Hcid.
      by destruct (Hnone conv); [apply list_elem_of_In|]. }
    assert (forall l : list C, List.find (fun _ => false) l = None) as Hfind
      by (induction l; done).
    destruct connectionsData as [[connections|]|]; [|done|done].
    by rewrite Hfind.
Qed.

End RelatedConnectionExtras.

(** ** The connection editor: glossary rows and saving *)

Module ConnectionEditorExtras.
Import ConnectionEditor.

Lemma obj_get_None (o : object) k :
  obj_get o k = None <-> k ∉ map fst o.
Proof.
  induction o as [|[k' v'] o IH]; simpl.
  - split; [intros _; apply not_elem_of_nil|done].
  - rewrite not_elem_of_cons.
    destruct (String.eqb_spec k' k) as [->|Hne]; [split; [done|by intros []]|].
    rewrite IH. split; [by split|by intros []].
Qed.

Lemma obj_get_obj_replace (o : object) k v k' :
  is_Some (obj_get o k) ->
  obj_get (obj_replace o k v) k'
  = if String.eqb k k' then Some v else obj_get o k'.
Proof.
  induction o as [|[k0 v0] o IH]; simpl; [by intros [? ?]|].
  destruct (String.eqb_spec k0 k) as [->|Hne0]; simpl.
  - intros _. by destruct (String.eqb k k').
  - intros Hk. rewrite IH by done.
    destruct (String.eqb_spec k0 k') as [->|_]; [|done].
    by destruct (String.eqb_spec k k') as [->|_].
Qed.

Lemma obj_get_obj_add (o : object) k v k' :
  obj_get o k = None ->
  obj_get (obj_add o k v) k'
  = if String.eqb k k' then Some v else obj_get o k'.
Proof.
  induction o as [|[k0 v0] o IH]; simpl; [done|].
  destruct (String.eqb_spec k0 k) as [->|Hne0]; [done|]. intros Hk.
  destruct (goes_before k k0); simpl; [done|]. rewrite IH by done.
  destruct (String.eqb_spec k0 k') as [->|_]; [|done].
  by destruct (String.eqb_spec k k') as [->|_].
Qed.

Lemma obj_get_obj_put (o : object) k v k' :
  obj_get (obj_put o k v) k' = if String.eqb k k' then Some v else obj_get o k'.
Proof.
  unfold obj_put. destruct (obj_get o k) as [w|] eqn:Hk.
  - apply obj_get_obj_replace. by rewrite Hk.
  - by apply obj_get_obj_add.
Qed.

Lemma obj_replace_keys (o : object) k v :
  map fst (obj_replace o k v) = map fst o.
Proof.
  induction o as [|[k' v'] o IH]; simpl; [done|].
  destruct (String.eqb k' k); simpl; [done|]. by rewrite IH.
Qed.

Lemma obj_add_keys (o : object) k v :
  map fst (obj_add o k v) ≡ₚ k :: map fst o.
Proof.
  induction o as [|[k' v'] o IH]; simpl; [done|].
  destruct (goes_before k k'); simpl; [done|].
  rewrite IH. apply Permutation_swap.
Qed.

Lemma obj_put_keys (o : object) k v :
  k ∈ map fst o -> map fst (obj_put o k v) = map fst o.
Proof.
  intros Hin. unfold obj_put. destruct (obj_get o k) eqn:Hk.
  - apply obj_replace_keys.
  - apply obj_get_None in Hk. done.
Qed.

Lemma obj_put_fresh_keys (o : object) k v :
  k ∉ map fst o -> map fst (obj_put o k v) ≡ₚ k :: map fst o.
Proof.
  intros Hfresh. apply obj_get_None in Hfresh. unfold obj_put.
  rewrite Hfresh. apply obj_add_keys.
Qed.

Lemma obj_put_NoDup (o : object) k v :
  NoDup (map fst o) -> NoDup (map fst (obj_put o k v)).
Proof.
  intros Hnd. destruct (decide (k ∈ map fst o)) as [Hin|Hfresh].
  - by rewrite obj_put_keys.
  - rewrite obj_put_fresh_keys by done. by apply NoDup_cons.
Qed.

Lemma obj_put_elem_of (o : object) k v k' :
  k' ∈ map fst (obj_put o k v) <-> k' = k \/ k' ∈ map fst o.
Proof.
  destruct (decide (k ∈ map fst o)) as [Hin|Hfresh].
  - rewrite obj_put_keys by done. split; [by right|].
    by intros [->|?].
  - rewrite obj_put_fresh_keys by done. apply elem_of_cons.
Qed.

Lemma obj_put_length (o : object) k v :
  length (obj_put o k v) <= S (length o).
Proof.
  rewrite <- !(length_map fst).
  destruct (decide (k ∈ map fst o)) as [Hin|Hfresh].
  - rewrite obj_put_keys by done. lia.
  - by rewrite obj_put_fresh_keys.
Qed.

(** A new key that comes before none of the properties is added last. *)
Lemma obj_put_fresh (o : object) k v :
  k ∉ map fst o ->
  Forall (fun k' => goes_before k k' = false) (map fst o) ->
  obj_put o k v = o ++ [(k, v)].
Proof.
  intros Hfresh Hlast. apply obj_get_None in Hfresh. unfold obj_put.
  rewrite Hfresh. clear Hfresh.
  induction o as [|[k' v'] o IH]; simpl; [done|].
  simpl in Hlast. apply Forall_cons in Hlast as [-> Hlast]. by rewrite IH.
Qed.

(** In a list in the order of [Object.keys], a key comes before none of
    the keys listed before it. *)
Lemma js_ordered_before (l1 l2 : list string) k :
  js_ordered (l1 ++ k :: l2) ->
  Forall (fun k' => goes_before k k' = false) l1.
Proof.
  induction l1 as [|k1 l1 IH]; simpl; [constructor|].
  intros [Hk1 Hord]. constructor; [|by apply IH].
  rewrite Forall_app, Forall_cons in Hk1. tauto.
Qed.

(** The two cases of an assignment. *)
Lemma obj_set_put (o : object) k v :
  k <> "__proto__"%string -> obj_set o k v = obj_put o k v.
Proof.
  intros Hk. unfold obj_set. apply String.eqb_neq in Hk. by rewrite Hk.
Qed.

Lemma obj_set_proto (o : object) v :
  "__proto__"%string ∉ map fst o -> obj_set o "__proto__" v = o.
Proof.
  intros Hfresh. apply obj_get_None in Hfresh. unfold obj_set.
  by rewrite Hfresh.
Qed.

Lemma convert_snoc rows r :
  convertToKeyValueObject (rows ++ [r])
  = obj_set (convertToKeyValueObject rows) (key r) (value r).
Proof. unfold convertToKeyValueObject. by rewrite foldl_app. Qed.

Lemma convert_fresh_rows (acc : object) (rows : list GlossaryItem) :
  NoDup (map fst acc ++ map key rows) ->
  js_ordered (map fst acc ++ map key rows) ->
  "__proto__"%string ∉ map key rows ->
  foldl (fun acc item => obj_set acc (key item) (value item)) acc rows
  = acc ++ map (fun item => (key item, value item)) rows.
Proof.
  revert acc. induction rows as [|r rows IH]; intros acc Hnd Hord Hproto; simpl.
  - by rewrite app_nil_r.
  - assert (key r ∉ map fst acc) as Hfresh.
    { intros Hin. apply NoDup_app in Hnd as (_ & Hdisj & _).
      apply (Hdisj _ Hin). apply elem_of_cons. by left. }
    simpl in Hproto. apply not_elem_of_cons in Hproto as [Hr Hproto].
    rewrite obj_set_put by done.
    rewrite obj_put_fresh by (done || by apply (js_ordered_before _ _ _ Hord)).
    rewrite IH.
    + by rewrite <- app_assoc.
    + rewrite map_app. simpl. rewrite <- app_assoc. done.
    + rewrite map_app. simpl. rewrite <- app_assoc. done.
    + done.
Qed.

Lemma rows_of_object (o : object) :
  NoDup (map fst o) ->
  map (fun item => (key item, value item)) (newGlsry (Some o)) = o.
Proof.
  unfold newGlsry. simpl. rewrite !map_map. simpl.
  induction o as [|[k v] o IH]; [done|]. simpl. intros Hnd.
  apply NoDup_cons in Hnd as [Hfresh Hnd].
  rewrite String.eqb_refl. simpl. f_equal.
  rewrite <- (IH Hnd) at 2. apply map_ext_in. intros [k' v'] Hin. simpl.
  destruct (String.eqb_spec k k') as [->|_]; [|done].
  exfalso. apply Hfresh. apply list_elem_of_In in Hin.
  by apply (list_elem_of_fmap_2 fst) in Hin.
Qed.

Lemma keys_of_rows (o : object) : map key (newGlsry (Some o)) = map fst o.
Proof. unfold newGlsry. simpl. rewrite map_map. simpl. by rewrite map_id. Qed.

(** X19. The glossary of a connection, an object with its keys
    distinct and in the order of [Object.keys], as those of an object
    are, and none of them ["__proto__"], comes back unchanged from the
    editor when no row is edited: the object built from the rows made
    of it is the object itself. A missing glossary gives no rows and the
    empty object. *)
Theorem glossary_round_trip (o : object) :
  NoDup (map fst o) ->
  js_ordered (map fst o) ->
  "__proto__"%string ∉ map fst o ->
  convertToKeyValueObject (newGlsry (Some o)) = o
  /\ length (newGlsry (Some o)) = length o
  /\ convertToKeyValueObject (newGlsry None) = [].
Proof.
  intros Hnd Hord Hproto. split; [|split; [|done]].
  - unfold convertToKeyValueObject. rewrite convert_fresh_rows.
    + by apply rows_of_object.
    + simpl. by rewrite keys_of_rows.
    + simpl. by rewrite keys_of_rows.
    + by rewrite keys_of_rows.
  - unfold newGlsry. simpl. by rewrite !length_map.
Qed.

Lemma glossary_round_trip_witness :
  let o := [("2"%string, "two"%string); ("10"%string, "ten"%string);
            ("revenue"%string, "total sales"%string);
            ("churn"%string, ""%string)] in
  (NoDup (map fst o) /\ js_ordered (map fst o)
   /\ "__proto__"%string ∉ map fst o)
  /\ convertToKeyValueObject (newGlsry (Some o)) = o.
Proof.
  intros o.
  assert (NoDup (map fst o)) as Hnd.
  { apply (bool_decide_unpack _). by vm_compute. }
  assert (js_ordered (map fst o)) as Hord.
  { simpl. repeat split; repeat constructor. }
  assert ("__proto__"%string ∉ map fst o) as Hproto.
  { intros Hin. repeat (apply elem_of_cons in Hin as [Hin|Hin]; [done|]).
    by apply elem_of_nil in Hin. }
  split; [split; [exact Hnd|split; [exact Hord|exact Hproto]]|].
  exact (proj1 (glossary_round_trip o Hnd Hord Hproto)).
Defined.

Lemma last_filter_snoc {A} (f : A -> bool) (l : list A) x :
  last (List.filter f (l ++ [x]))
  = if f x then Some x else last (List.filter f l).
Proof.
  rewrite List.filter_app. simpl. destruct (f x).
  - apply last_snoc.
  - by rewrite app_nil_r.
Qed.

(** X20. In the object built from the rows, a key other than
    ["__proto__"] has the value of the last row with that key, and the
    keys are the keys of the rows other than ["__proto__"], each once;
    so rows with one key, such as two rows added and left with the
    default key, end up as a single property. A row with the key
    ["__proto__"] gives no property. *)
Theorem last_row_of_a_key_wins (rows : list GlossaryItem) :
  (forall k,
     obj_get (convertToKeyValueObject rows) k
     = if String.eqb k "__proto__" then None
       else value <$> last (List.filter (fun r => String.eqb (key r) k) rows))
  /\ NoDup (map fst (convertToKeyValueObject rows))
  /\ (forall k, k ∈ map fst (convertToKeyValueObject rows)
                <-> k ∈ map key rows /\ k <> "__proto__"%string)
  /\ length (convertToKeyValueObject rows) <= length rows.
Proof.
  induction rows as [|r rows (Hget & Hnd & Hkeys & Hlen)] using rev_ind.
  - split; [|split; [constructor|split; [|simpl; lia]]].
    + intros k. simpl. by destruct (String.eqb k "__proto__").
    + intros k. simpl. split; [by intros ?%elem_of_nil|].
      by intros [?%elem_of_nil _].
  - rewrite convert_snoc, length_app. simpl.
    destruct (decide (key r = "__proto__"%string)) as [Hr|Hr].
    + assert ("__proto__"%string ∉ map fst (convertToKeyValueObject rows))
        as Hfresh.
      { apply obj_get_None. by rewrite Hget. }
      rewrite Hr, obj_set_proto by done.
      split; [|split; [done|split; [|lia]]].
      * intros k. rewrite Hget, last_filter_snoc, Hr.
        destruct (String.eqb_spec k "__proto__") as [->|Hk]; [done|].
        destruct (String.eqb_spec "__proto__" k) as [<-|_]; done.
      * intros k. rewrite Hkeys, map_app, elem_of_app. simpl.
        rewrite list_elem_of_singleton, Hr. split; [tauto|].
        intros [[? | ->] ?]; [tauto|done].
    + rewrite obj_set_put by done.
      split; [|split; [by apply obj_put_NoDup|split]].
      * intros k. rewrite obj_get_obj_put, last_filter_snoc, Hget.
        destruct (String.eqb_spec (key r) k) as [<-|_]; [|done].
        by destruct (String.eqb_spec (key r) "__proto__").
      * intros k. rewrite obj_put_elem_of, Hkeys, map_app, elem_of_app. simpl.
        rewrite list_elem_of_singleton. split.
        -- intros [->|[? ?]]; [split; [by right|done]|split; [by left|done]].
        -- intros [[? | ->] ?]; [right; by split|by left].
      * pose proof (obj_put_length (convertToKeyValueObject rows) (key r)
                      (value r)). lia.
Qed.

(** Two rows left with the default key, a row with the key
    ["__proto__"] and rows whose keys are array indices, which the
    object lists first. *)
Lemma last_row_of_a_key_wins_witness :
  let rows := [Item "key" "a"; Item "__proto__" "x"; Item "10" "ten";
               Item "key" "b"; Item "2" "two"] in
  convertToKeyValueObject rows
  = [("2"%string, "two"%string); ("10"%string, "ten"%string);
     ("key"%string, "b"%string)]
  /\ obj_get (convertToKeyValueObject rows) "key" = Some "b"%string
  /\ obj_get (convertToKeyValueObject rows) "__proto__" = None.
Proof.
  intros rows.
  destruct (last_row_of_a_key_wins rows) as (Hget & _).
  split; [reflexivity|]. split; [exact (Hget "key"%string)|].
  exact (Hget "__proto__"%string).
Defined.

Lemma glossary_step_unsaved {O N} (ev : glossary_event) (st : state O N) :
  is_change ev = false ->
  unsavedChanges (glossary_step ev st) = unsavedChanges st.
Proof. by destruct ev. Qed.

(** X21. Adding and removing glossary rows does not count as a change:
    after any number of them with nothing else edited, Save asks for no
    update and only leaves the page, and Back leaves without the
    warning, although the rows differ from those loaded. Editing the
    text of an existing row does set the flag. *)
Theorem row_adds_and_removals_are_not_saved
    {O N : Type} (connectionId : string) (connection : option (IConnection O N))
    (st : state O N) (evs : list glossary_event) :
  unsavedChanges st = false ->
  Forall (fun ev => is_change ev = false) evs ->
  let st' := fold_glossary_events evs st in
  handleSubmit connectionId connection st' = [Navigate "/"]
  /\ handleBack st' = (st', [Navigate "/"])
  /\ (forall name v i,
        is_Some (glossary st' !! i) ->
        unsavedChanges (glossary_step (ChangeRow name v i) st') = true).
Proof.
  intros Hclean Hevs st'.
  assert (unsavedChanges st' = false) as Hst'.
  { unfold st', fold_glossary_events. clear st'. revert st Hclean.
    induction Hevs as [|ev evs Hev _ IH]; intros st Hclean; [done|].
    simpl. apply IH. by rewrite glossary_step_unsaved. }
  split; [|split].
  - unfold handleSubmit. by rewrite Hst'.
  - unfold handleBack. by rewrite Hst'.
  - intros name v i [item Hitem]. simpl. unfold glossaryChangeHandler.
    by rewrite Hitem.
Qed.

Lemma row_adds_and_removals_are_not_saved_witness :
  let st := State (O := unit) (N := nat) false false (EditFields "db" None None)
              [Item "revenue" "total sales"] "" "" 200 in
  let st' := fold_glossary_events [RemoveRow 0; AddRow] st in
  unsavedChanges st = false
  /\ glossary st' = [Item "key" ""]
  /\ handleSubmit "c1" None st' = [Navigate "/"].
Proof.
  intros st st'. split; [reflexivity|]. split; [reflexivity|].
  assert (Forall (fun ev => is_change ev = false) [RemoveRow 0; AddRow]) as Hevs
    by (repeat constructor).
  exact (proj1 (row_adds_and_removals_are_not_saved "c1" None st
                  [RemoveRow 0; AddRow] eq_refl Hevs)).
Defined.

End ConnectionEditorExtras.

(** ** The schema editor: what the switches change *)

Module SchemaEditorExtras.
Import SchemaEditor.

Lemma map_at_lookup {A} (i : nat) (f : A -> A) (l : list A) j :
  map_at i f l !! j = if decide (i = j) then f <$> l !! j else l !! j.
Proof.
  revert i j. induction l as [|x l IH]; intros i j; simpl.
  - by destruct i, (decide _).
  - destruct i as [|i], j as [|j]; simpl; try done.
    rewrite IH. by repeat case_decide; try lia.
Qed.

Lemma map_at_length {A} (i : nat) (f : A -> A) (l : list A) :
  length (map_at i f l) = length l.
Proof.
  revert i. induction l as [|x l IH]; intros [|i]; simpl; try done.
  by rewrite IH.
Qed.

Lemma map_at_map_at {A} (i : nat) (f g : A -> A) (l : list A) :
  map_at i f (map_at i g l) = map_at i (fun x => f (g x)) l.
Proof.
  revert i. induction l as [|x l IH]; intros [|i]; simpl; try done.
  by rewrite IH.
Qed.

Lemma map_at_ext {A} (i : nat) (f g : A -> A) (l : list A) :
  (forall x, f x = g x) -> map_at i f l = map_at i g l.
Proof.
  intros Hfg. revert i. induction l as [|x l IH]; intros [|i]; simpl; try done.
  - by rewrite Hfg.
  - by rewrite IH.
Qed.

Lemma map_map_at {A B} (i : nat) (f : A -> B) (g : A -> A) (l : list A) :
  (forall x, f (g x) = f x) -> map f (map_at i g l) = map f l.
Proof.
  intros Hfg. revert i. induction l as [|x l IH]; intros [|i]; simpl; try done.
  - by rewrite Hfg.
  - by rewrite IH.
Qed.

(** X22. The schema switch sets the schema and every table of it to the
    value of the switch, so each of its table switches then shows that
    value; it changes no name, column or description, no other schema,
    and not the number of schemas or tables. *)
Theorem schema_switch_sets_all_its_tables
    {C : Type} (schema_index : nat) (checked : bool)
    (options : connection_options C) :
  let options' := toggle_schema schema_index checked options in
  length options' = length options
  /\ (forall j, j <> schema_index -> options' !! j = options !! j)
  /\ (forall s, options !! schema_index = Some s ->
        exists s',
          options' !! schema_index = Some s'
          /\ schema_name s' = schema_name s
          /\ schema_enabled s' = checked
          /\ length (tables s') = length (tables s)
          /\ forall k t, tables s !! k = Some t ->
               tables s' !! k
               = Some (Table (table_name t) checked (columns t) (description t))
               /\ table_checked options' schema_index k = Some checked).
Proof.
  intros options'. unfold options', toggle_schema.
  split; [apply map_at_length|]. split.
  - intros j Hj. rewrite map_at_lookup. by case_decide.
  - intros s Hs. eexists. rewrite map_at_lookup, Hs.
    case_decide; [|done]. simpl. split; [done|]. simpl. split; [done|].
    split; [done|]. split; [by rewrite length_map|].
    intros k t Ht.
    assert (map (fun t0 : table C =>
                   Table (table_name t0) checked (columns t0) (description t0))
                (tables s) !! k
            = Some (Table (table_name t) checked (columns t) (description t)))
      as Hk.
    { change (map ?f ?l) with (f <$> l). by rewrite list_lookup_fmap, Ht. }
    split; [done|]. unfold table_checked.
    rewrite map_at_lookup, Hs. case_decide; [|done]. simpl. rewrite Hk. simpl.
    by destruct checked.
Qed.

Lemma schema_switch_sets_all_its_tables_witness :
  let options := [Schema (C := unit) "public" true
                    [Table "users" true None None;
                     Table "orders" false None (Some "all orders")]] in
  let options' := toggle_schema 0 false options in
  table_checked options' 0 0 = Some false
  /\ options' !! 0
     = Some (Schema "public" false
               [Table "users" false None None;
                Table "orders" false None (Some "all orders")]).
Proof.
  intros options options'.
  destruct (schema_switch_sets_all_its_tables 0 false options)
    as (_ & _ & Hthis).
  destruct (Hthis _ eq_refl) as (s' & Hs' & _ & _ & _ & Htables).
  destruct (Htables 0 _ eq_refl) as [_ Hchecked].
  split; [exact Hchecked|]. reflexivity.
Defined.

(** X23. The schema switch overrides the table switches of its schema:
    whatever a table switch of the schema set before, the options after
    the schema switch are those the schema switch alone gives. And a
    table switched on under a schema that is off still shows as off. *)
Theorem schema_switch_overrides_table_switches
    {C : Type} (schema_index table_index : nat) (checked checked' : bool)
    (options : connection_options C) :
  toggle_schema schema_index checked
    (toggle_table schema_index table_index checked' options)
  = toggle_schema schema_index checked options
  /\ (forall s, options !! schema_index = Some s ->
        schema_enabled s = false ->
        is_Some (tables s !! table_index) ->
        table_checked (toggle_table schema_index table_index true options)
                      schema_index table_index
        = Some false).
Proof.
  split.
  - unfold toggle_schema, toggle_table. rewrite map_at_map_at.
    apply map_at_ext. intros s. simpl. f_equal.
    induction (tables s) as [|t l IH] in table_index |- *;
      destruct table_index; simpl; try done.
    by rewrite IH.
  - intros s Hs Hoff [t Ht]. unfold table_checked, toggle_table.
    rewrite map_at_lookup, Hs. case_decide; [|done]. simpl.
    rewrite map_at_lookup, Ht. case_decide; [|done]. simpl.
    rewrite Hoff. done.
Qed.

Lemma schema_switch_overrides_table_switches_witness :
  let options := [Schema (C := unit) "public" false
                    [Table "users" false None None]] in
  options !! 0 = Some (Schema "public" false [Table "users" false None None])
  /\ table_checked (toggle_table 0 0 true options) 0 0 = Some false
  /\ toggle_schema 0 true (toggle_table 0 0 false options)
     = toggle_schema 0 true options.
Proof.
  intros options.
  destruct (schema_switch_overrides_table_switches 0 0 true false options)
    as [Habsorb _].
  destruct (schema_switch_overrides_table_switches 0 0 true true options)
    as [_ Hshown].
  split; [reflexivity|]. split; [|exact Habsorb].
  apply (Hshown _ eq_refl eq_refl). by eexists.
Defined.

(** X24. A change of a table description sets the description of the
    table at the two indices and nothing else: what every table switch
    shows, every name and every other description stay, and with an
    index outside the options nothing changes at all. *)
Theorem description_change_touches_one_table
    {C : Type} (v : string) (table_index schema_index : nat)
    (options : connection_options C) :
  let options' :=
    tableDescriptionFieldChangeHandler v table_index schema_index options in
  (forall i k, table_checked options' i k = table_checked options i k)
  /\ map schema_name options' = map schema_name options
  /\ (forall i, i <> schema_index -> options' !! i = options !! i)
  /\ (forall s, options !! schema_index = Some s ->
        exists s',
          options' !! schema_index = Some s'
          /\ (forall k, k <> table_index -> tables s' !! k = tables s !! k)
          /\ (forall t, tables s !! table_index = Some t ->
                tables s' !! table_index
                = Some (Table (table_name t) (table_enabled t) (columns t)
                              (Some v))))
  /\ ((forall s, options !! schema_index = Some s ->
         tables s !! table_index = None) ->
      options' = options).
Proof.
  intros options'. unfold options', tableDescriptionFieldChangeHandler.
  destruct (options !! schema_index) as [s|] eqn:Hs;
    [|by repeat split; try done; intros ? [=]].
  destruct (tables s !! table_index) as [t|] eqn:Ht.
  2:{ split; [done|]. split; [done|]. split; [done|]. split; [|done].
      intros s0 [= <-]. exists s. split; [done|]. split; [done|].
      intros t0. by rewrite Ht. }
  pose proof (lookup_lt_Some _ _ _ Hs) as Hi.
  pose proof (lookup_lt_Some _ _ _ Ht) as Hk.
  split; [|split; [|split; [|split]]].
  - intros i k. unfold table_checked.
    destruct (decide (i = schema_index)) as [->|Hne].
    + rewrite list_lookup_insert_eq, Hs by done. simpl.
      destruct (decide (k = table_index)) as [->|Hnek].
      * by rewrite list_lookup_insert_eq, Ht by done.
      * by rewrite list_lookup_insert_ne by done.
    + by rewrite list_lookup_insert_ne by done.
  - apply list_eq. intros i. change (map ?f ?l) with (f <$> l).
    rewrite !list_lookup_fmap.
    destruct (decide (i = schema_index)) as [->|Hne].
    + by rewrite list_lookup_insert_eq, Hs by done.
    + by rewrite list_lookup_insert_ne by done.
  - intros i Hne. by rewrite list_lookup_insert_ne by done.
  - intros s0 [= <-]. eexists. rewrite list_lookup_insert_eq by done.
    split; [done|]. simpl. split.
    + intros k Hne. by rewrite list_lookup_insert_ne by done.
    + intros t0 Ht0. rewrite Ht in Ht0. injection Ht0 as <-.
      by rewrite list_lookup_insert_eq by done.
  - intros Hnone. by rewrite (Hnone s eq_refl) in Ht.
Qed.

End SchemaEditorExtras.

(** ** [classNames] *)

Module ClassNamesExtras.
Import JS ClassNames.

Lemma tokens_from_space cur (a b : jsstring) :
  tokens_from cur (a ++ js " " ++ b) = tokens_from cur a ++ tokens_from [] b.
Proof.
  revert cur. induction a as [|c a IH]; intros cur; simpl.
  - done.
  - case_bool_decide.
    + rewrite IH. by rewrite app_assoc.
    + apply IH.
Qed.

Lemma tokens_join (l : list jsstring) :
  tokens (join (js " ") l) = concat (map tokens l).
Proof.
  induction l as [|x l IH]; [done|]. destruct l as [|y l].
  - simpl. by rewrite app_nil_r.
  - change (join (js " ") (x :: y :: l))
      with (x ++ js " " ++ join (js " ") (y :: l)).
    unfold tokens at 1. rewrite tokens_from_space. cbn [map concat].
    f_equal. exact IH.
Qed.

(** X25. The class tokens of the string [classNames] gives are the
    class tokens of its arguments, in order: an empty argument, as a
    condition that does not hold gives, leaves nothing behind, and no
    token is lost or joined to another. *)
Theorem classNames_keeps_the_class_tokens (classes : list jsstring) :
  tokens (classNames classes) = concat (map tokens classes)
  /\ classNames (List.filter Renderer.truthy classes) = classNames classes
  /\ (Forall (fun c => c = []) classes -> classNames classes = []).
Proof.
  split; [|split].
  - unfold classNames. rewrite tokens_join.
    induction classes as [|c classes IH]; [done|]. simpl.
    destruct c as [|x c]; simpl; [done|]. by rewrite IH.
  - unfold classNames. f_equal.
    induction classes as [|c classes IH]; [done|]. simpl.
    destruct (Renderer.truthy c) eqn:Hc; simpl; rewrite ?Hc, IH; done.
  - intros Hempty. unfold classNames.
    induction Hempty as [|c classes -> _ IH]; [done|]. simpl. apply IH.
Qed.

End ClassNamesExtras.
